(** * Memory location ranges of TSAR: intersection, complement, delinearization

    A shallow embedding of [lib/Analysis/Memory/MemoryLocationRange.cpp]:
    the bounded complement generator [difference], the [delinearize] helper,
    the flat-interval [intersectScalar] and the per-axis driver
    [MemoryLocationRangeEquation::intersect].

    Conventions of the embedding:
    - the fields of a dimension and the bounds of a location are integers
      ([Z]); where the source names a 64-bit unsigned type (the vectors of
      [delinearize], the comparison with the [std::size_t] budget) the
      wrap-around is written out with [wrap64]; [/] and [%] are the
      truncating [Z.quot] and [Z.rem];
    - the output parameters [LC] and [RC] are passed in and returned, so a
      call yields the returned optional location and the two lists;
    - the ceiling and floor of the parameter window are computed on IEEE
      doubles, as in the source;
    - assertions of the source are hypotheses of the theorems, not checks of
      the functions. *)

From Stdlib Require Import ZArith Lia Bool List.
From Stdlib Require Import Floats.SpecFloat.
From stdpp Require Import base option list.

Local Open Scope Z_scope.

(** ** Data model *)

Module Loc.

(** Modelled from the spec: the header that declares [LocKind], [Dimension]
    and [MemoryLocationRange] is not among the sources.  The spec gives three
    kinds, four integer fields per dimension, an opaque base identity, two
    optional integer bounds and an ordered dimension list. *)
Inductive LocKind : Set := DEFAULT | NON_COLLAPSABLE | COLLAPSED.

(** Modelled from the spec: [Dimension], the index set
    [{Start + k * Step : k = 0 .. TripCount - 1}] of an axis of [DimSize]
    elements. *)
Record Dimension : Set := mkDim {
  Start : Z;
  Step : Z;
  TripCount : Z;
  DimSize : Z
}.

(** Modelled from the spec: [MemoryLocationRange].  [Ptr] is an address, of
    which only equality is tested; [0] stands for the null pointer. *)
Record MemoryLocationRange : Set := mkLoc {
  Ptr : Z;
  Kind : LocKind;
  LowerBound : option Z;
  UpperBound : option Z;
  DimList : list Dimension
}.

#[global] Instance LocKind_eq_dec : EqDecision LocKind.
Proof. solve_decision. Defined.

#[global] Instance Dimension_eq_dec : EqDecision Dimension.
Proof. solve_decision. Defined.

#[global] Instance MemoryLocationRange_eq_dec : EqDecision MemoryLocationRange.
Proof. solve_decision. Defined.

(** A value-initialised [Dimension] (what [emplace_back()] and [resize]
    create). *)
Definition Dimension_default : Dimension := mkDim 0 0 0 0.

(** Modelled from the spec: [MemoryLocationRange()], the imprecise sentinel, is
    "a default-valued MemoryLocationRange with no bounds". *)
Definition MemoryLocationRange_default : MemoryLocationRange :=
  mkLoc 0 DEFAULT None None [].

Definition set_Kind (L : MemoryLocationRange) (k : LocKind) :=
  mkLoc (Ptr L) k (LowerBound L) (UpperBound L) (DimList L).
Definition set_LowerBound (L : MemoryLocationRange) (b : option Z) :=
  mkLoc (Ptr L) (Kind L) b (UpperBound L) (DimList L).
Definition set_UpperBound (L : MemoryLocationRange) (b : option Z) :=
  mkLoc (Ptr L) (Kind L) (LowerBound L) b (DimList L).
Definition set_DimList (L : MemoryLocationRange) (ds : list Dimension) :=
  mkLoc (Ptr L) (Kind L) (LowerBound L) (UpperBound L) ds.

(** The index set a dimension stands for:
    [{Start + k * Step : k = 0 .. TripCount - 1}]. *)
Definition dim_mem (d : Dimension) (i : Z) : Prop :=
  exists k, 0 <= k < TripCount d /\ i = Start d + k * Step d.

Definition valid_dim (d : Dimension) : Prop :=
  0 <= Start d /\ 0 < Step d /\ 0 < TripCount d.

End Loc.
Export Loc.

(** ** Machine arithmetic *)

(** Values stored in a [uint64_t] or compared against a [std::size_t]. *)
Definition wrap64 (x : Z) : Z := x mod 2 ^ 64.

(** ** The bounded complement generator *)

(** The loop [for (J = 0; J < RepeatNumber; ++J)] of [difference]: [n]
    iterations left, [J] the current counter. *)
Fixpoint center_fragments (D I : Dimension) (J : Z) (n : nat)
  : list Dimension :=
  match n with
  | O => []
  | S n' =>
      mkDim (Start I + Step D * (J + 1)) (Step D) (TripCount I - 1) (DimSize D)
        :: center_fragments D I (J + 1) n'
  end.

Definition left_fragment (D I : Dimension) : list Dimension :=
  if Start D <? Start I
  then [mkDim (Start D) (Step D) ((Start I - Start D) ÷ Step D) (DimSize D)]
  else [].

Definition right_fragment (D I : Dimension) : list Dimension :=
  let DEnd := Start D + Step D * (TripCount D - 1) in
  let IEnd := Start I + Step I * (TripCount I - 1) in
  if DEnd >? IEnd
  then [mkDim (IEnd + Step D) (Step D) ((DEnd - IEnd) ÷ Step D) (DimSize D)]
  else [].

(** [difference D I Res Threshold]: the returned flag and the new contents of
    [Res].  [RepeatNumber] is compared against the [std::size_t] budget, that
    is, as an unsigned 64-bit number. *)
Definition difference (D I : Dimension) (Res : list Dimension) (Threshold : Z)
  : bool * list Dimension :=
  let Res1 := Res ++ left_fragment D I in
  let Res2 := Res1 ++ right_fragment D I in
  if TripCount I >? 1 then
    let RepeatNumber := wrap64 (Step I ÷ Step D - 1) in
    if RepeatNumber >? Threshold then (false, Res2)
    else (true, Res2 ++ center_fragments D I 0 (Z.to_nat RepeatNumber))
  else (true, Res2).

(** ** Double-precision arithmetic used by the driver *)

Module Double.

(** IEEE 754 binary64, through the Standard Library's executable
    specification of floating-point numbers. *)
Definition prec : Z := 53.
Definition emax : Z := 1024.

(** Conversion of an integer to [double] (round to nearest, ties to even). *)
Definition of_int (n : Z) : spec_float := binary_normalize prec emax n 0 false.

Definition div (x y : spec_float) : spec_float := SFdiv prec emax x y.

(** [std::floor] and [std::ceil] followed by the conversion back to the
    integer type [ValueT]; the value of a finite double is
    [(-1)^s * m * 2^e].  Infinities and NaN do not arise from a quotient of
    two integers with a non-zero divisor. *)
Definition floor (x : spec_float) : Z :=
  match x with
  | S754_finite s m e =>
      let v := cond_Zopp s (Zpos m) in
      if 0 <=? e then v * 2 ^ e else v / 2 ^ (- e)
  | _ => 0
  end.

Definition ceil (x : spec_float) : Z :=
  match x with
  | S754_finite s m e =>
      let v := cond_Zopp s (Zpos m) in
      if 0 <=? e then v * 2 ^ e else - ((- v) / 2 ^ (- e))
  | _ => 0
  end.

(** [std::ceil(n / double(b))] and [std::floor(n / double(b))] for integers
    [n] and [b]: both operands are converted to [double] before the
    division. *)
Definition ceil_quot (n b : Z) : Z := ceil (div (of_int n) (of_int b)).
Definition floor_quot (n b : Z) : Z := floor (div (of_int n) (of_int b)).

End Double.

(** ** The linear solver *)

Module Equation.

(** Modelled from the spec: the solution of [bcl/Equation.h], which is not
    among the sources, has one line per unknown; the driver reads a line as
    [x + RHS_Value * T = Constant] with the parameter [T]. *)
Record Line : Set := mkLine { Constant : Z; RHS_Value : Z }.

(** Modelled from the spec: the Bezout coefficients of the solver, by the
    extended Euclidean algorithm on non-negative numbers; the result is
    [(g, u, v)] with [a * u + b * v = g]. *)
Fixpoint egcd_fuel (n : nat) (a b : Z) : Z * Z * Z :=
  match n with
  | O => (a, 1, 0)
  | S n' =>
      if b =? 0 then (a, 1, 0)
      else let '(g, u, v) := egcd_fuel n' b (a mod b) in
           (g, v, u - (a / b) * v)
  end.

(** Modelled from the spec: the larger number goes first, and the fuel
    covers the halving of the product of the two numbers. *)
Definition egcd_nonneg (a b : Z) : Z * Z * Z :=
  if b <=? a
  then egcd_fuel (S (Z.to_nat (Z.log2_up (a * b + 1)))) a b
  else let '(g, u, v) := egcd_fuel (S (Z.to_nat (Z.log2_up (a * b + 1)))) b a in
       (g, v, u).

(** Modelled from the spec: Bezout coefficients for integers of any sign. *)
Definition egcd (a b : Z) : Z * Z * Z :=
  let '(g, u, v) := egcd_nonneg (Z.abs a) (Z.abs b) in
  (g, Z.sgn a * u, Z.sgn b * v).

(** Modelled from the spec: the solver of [bcl/Equation.h] is not among the
    sources.  The spec asks for "an exact integer linear (Bezout-based)
    solver" of the one equation [a * x + b * y = c] that the driver pushes,
    reporting no solution when there is none and otherwise a solution line
    per unknown: [x = Constant + (- b / g) * T] and
    [y = Constant + (a / g) * T], from the particular solution that the
    Bezout coefficients give.  [None] stands for a solution number of 0. *)
Definition solve (a b c : Z) : option (Line * Line) :=
  let '(g, u, v) := egcd a b in
  if g =? 0 then None
  else if negb (c mod g =? 0) then None
  else Some (mkLine (u * (c / g)) (b / g), mkLine (v * (c / g)) (- (a / g))).

End Equation.
Export Equation.

(** ** Delinearization *)

(** [SizesInBytes]: the element size at the back, then, towards the front,
    the running product with each axis size, stored as [uint64_t]. *)
Fixpoint SizesInBytes (ds : list Dimension) (ElemSize : Z) : list Z :=
  match ds with
  | [] => [ElemSize]
  | d :: ds' =>
      let rest := SizesInBytes ds' ElemSize in
      wrap64 (DimSize d * hd 0 rest) :: rest
  end.

(** One entry of [LowerIdx] / [UpperIdx]. *)
Definition axis_index (Bound CurrSize NextSize : Z) : Z :=
  if CurrSize >? 0 then Z.rem Bound CurrSize ÷ NextSize else Bound ÷ NextSize.

Fixpoint indices (Bound : Z) (Sizes : list Z) : list Z :=
  match Sizes with
  | CurrSize :: (NextSize :: _) as rest =>
      axis_index Bound CurrSize NextSize :: indices Bound rest
  | _ => []
  end.

(** The test of one axis in the first shape: the access spans the axis. *)
Definition full_span (From : MemoryLocationRange) (LowerIdx UpperIdx : list Z)
    (I : nat) : bool :=
  (nth I LowerIdx 0 =? 0) &&
  (wrap64 (nth I UpperIdx 0 + 1) =?
   DimSize (nth I (DimList From) Dimension_default)).

Definition same_index (LowerIdx UpperIdx : list Z) (I : nat) : bool :=
  nth I LowerIdx 0 =? nth I UpperIdx 0.

(** The dimensions written into [What.DimList] after [resize(DimN)]. *)
Definition delinearized_dims (From : MemoryLocationRange)
    (LowerIdx UpperIdx : list Z) : list Dimension :=
  map (fun I =>
         mkDim (nth I LowerIdx 0) 1
               (wrap64 (nth I UpperIdx 0 - nth I LowerIdx 0 + 1))
               (DimSize (nth I (DimList From) Dimension_default)))
      (seq 0 (length (DimList From))).

(** The decision taken after the indices are known: [true] when the
    dimensions are written and the kind becomes [COLLAPSED]. *)
Definition delinearize_shape (From : MemoryLocationRange)
    (LowerIdx UpperIdx : list Z) : bool :=
  let DimN := length (DimList From) in
  if full_span From LowerIdx UpperIdx (DimN - 1)
  then forallb (full_span From LowerIdx UpperIdx) (seq 1 (DimN - 2))
  else forallb (same_index LowerIdx UpperIdx) (seq 0 (DimN - 1)).

(** [delinearize From What]: the new value of [What].  The source asserts
    that [From.UpperBound] has a value; without one, [What] is left as it
    is. *)
Definition delinearize (From What : MemoryLocationRange)
  : MemoryLocationRange :=
  if negb (bool_decide (Kind What = DEFAULT)) ||
     negb (bool_decide (Kind From = COLLAPSED)) then What
  else
    match LowerBound What, UpperBound What with
    | Some Lower, Some Upper =>
        if Lower >=? Upper then What
        else if Nat.eqb (length (DimList From)) 0 then What
        else
          match UpperBound From with
          | None => What
          | Some ElemSize =>
              if negb (Z.rem Lower ElemSize =? 0) ||
                 negb (Z.rem Upper ElemSize =? 0) then What
              else
                let Sizes := SizesInBytes (DimList From) ElemSize in
                let LowerIdx := indices Lower Sizes in
                let UpperIdx := indices (Upper - 1) Sizes in
                if delinearize_shape From LowerIdx UpperIdx
                then set_Kind
                       (set_DimList What
                          (delinearized_dims From LowerIdx UpperIdx))
                       COLLAPSED
                else What
          end
    | _, _ => What
    end.

(** ** Intersection of flat intervals *)

(** The fragment lists are optional output parameters: [None] is a null
    pointer, [Some l] a list that receives the new fragments at its end. *)
Definition Fragments : Set := option (list MemoryLocationRange).

Definition emplace_back (C : Fragments) (new : list MemoryLocationRange)
  : Fragments :=
  match C with
  | None => None
  | Some l => Some (l ++ new)
  end.

(** The two leftover pieces of one side around the intersection
    [[IntLower, IntUpper)]. *)
Definition scalar_leftover (Side : MemoryLocationRange)
    (SideLower SideUpper IntLower IntUpper : Z) : list MemoryLocationRange :=
  (if SideLower <? IntLower
   then [set_UpperBound Side (Some IntLower)] else []) ++
  (if SideUpper >? IntUpper
   then [set_LowerBound Side (Some IntUpper)] else []).

Definition intersectScalar (LHS RHS : MemoryLocationRange) (LC RC : Fragments)
  : option MemoryLocationRange * Fragments * Fragments :=
  if negb (Ptr LHS =? Ptr RHS) then (None, LC, RC)
  else
    match LowerBound LHS, UpperBound LHS, LowerBound RHS, UpperBound RHS with
    | Some LL, Some LU, Some RL, Some RU =>
        if (LU >? RL) && (LL <? RU) then
          let IntLower := Z.max LL RL in
          let IntUpper := Z.min LU RU in
          let Int :=
            set_UpperBound (set_LowerBound LHS (Some IntLower))
                           (Some IntUpper) in
          (Some Int,
           emplace_back LC (scalar_leftover LHS LL LU IntLower IntUpper),
           emplace_back RC (scalar_leftover RHS RL RU IntLower IntUpper))
        else (None, LC, RC)
    | LL, LU, RL, RU =>
        if match LU, RL with Some u, Some l => u <=? l | _, _ => false end ||
           match LL, RU with Some l, Some u => l >=? u | _, _ => false end
        then (None, LC, RC)
        else (Some MemoryLocationRange_default, LC, RC)
    end.

(** ** The affine intersection driver *)

(** What the body of the axis loop decides before it touches the fragment
    lists: [return MemoryLocationRange()], [break] with [Intersected = false],
    or the intersection of this axis. *)
Inductive AxisResult : Set :=
  | AxisImprecise
  | AxisDisjoint
  | AxisInt (Intersection : Dimension).

(** The combined parameter window [(Tmin, Tmax)], with the rounding done in
    double precision as in the source. *)
Definition window (A B C D : Z) (XRange YRange : Z * Z) : Z * Z :=
  let TXmin := Double.ceil_quot (fst XRange - A) B in
  let TXmax := Double.floor_quot (snd XRange - A) B in
  let TYmin := Double.ceil_quot (fst YRange - C) D in
  let TYmax := Double.floor_quot (snd YRange - C) D in
  (Z.max TXmin TYmin, Z.min TXmax TYmax).

Definition intersect_axis (Left Right : Dimension) : AxisResult :=
  if negb (DimSize Left =? DimSize Right) then AxisImprecise
  else
    let LeftEnd := Start Left + Step Left * (TripCount Left - 1) in
    let RightEnd := Start Right + Step Right * (TripCount Right - 1) in
    if (LeftEnd <? Start Right) || (RightEnd <? Start Left) then AxisDisjoint
    else
      let L1 := Start Left in
      let K1 := Step Left in
      let L2 := Start Right in
      let K2 := Step Right in
      let XRange := (0, TripCount Left - 1) in
      let YRange := (0, TripCount Right - 1) in
      match solve K1 (- K2) (L2 - L1) with
      | None => AxisDisjoint
      | Some (LineX, LineY) =>
          let A := Constant LineX in
          let B := - RHS_Value LineX in
          let C := Constant LineY in
          let D := - RHS_Value LineY in
          let '(Tmin, Tmax) := window A B C D XRange YRange in
          if Tmax <? Tmin then AxisDisjoint
          else
            let Shift := Tmin in
            let Tmax := Tmax - Shift in
            let Step := K1 * B in
            let Start := (K1 * A + L1) + Step * Shift in
            AxisInt (mkDim Start Step (Tmax + 1) (DimSize Left))
      end.

(** The fragments one side receives for axis [I]: the marker when the budget
    is exceeded, otherwise one copy of the side per complement piece, with
    the piece stored at position [I]. *)
Definition axis_fragments (Side : MemoryLocationRange)
    (D Intersection : Dimension) (I : nat) (Threshold : Z)
  : list MemoryLocationRange :=
  match difference D Intersection [] Threshold with
  | (false, _) => [set_Kind (set_DimList Side []) NON_COLLAPSABLE]
  | (true, Compl) =>
      map (fun Comp => set_DimList Side (<[I := Comp]> (DimList Side))) Compl
  end.

(** The axis loop from index [I] on, with [n] axes left.  The state is the
    intersection built so far and the two fragment lists. *)
Fixpoint intersect_loop (Threshold : Z) (LHS RHS : MemoryLocationRange)
    (I n : nat) (Int : MemoryLocationRange) (LC RC : Fragments)
  : option MemoryLocationRange * Fragments * Fragments :=
  match n with
  | O => (Some Int, LC, RC)
  | S n' =>
      let Left := nth I (DimList LHS) Dimension_default in
      let Right := nth I (DimList RHS) Dimension_default in
      match intersect_axis Left Right with
      | AxisImprecise => (Some MemoryLocationRange_default, LC, RC)
      | AxisDisjoint => (None, LC, RC)
      | AxisInt Intersection =>
          intersect_loop Threshold LHS RHS (S I) n'
            (set_DimList Int (<[I := Intersection]> (DimList Int)))
            (emplace_back LC
               (axis_fragments LHS Left Intersection I Threshold))
            (emplace_back RC
               (axis_fragments RHS Right Intersection I Threshold))
      end
  end.

(** The first step of the driver: when exactly one side is [DEFAULT] and the
    other [COLLAPSED], the flat side is delinearized against the other. *)
Definition normalize (LHS RHS : MemoryLocationRange)
  : MemoryLocationRange * MemoryLocationRange :=
  if bool_decide (Kind LHS = DEFAULT) && bool_decide (Kind RHS = COLLAPSED)
  then (delinearize RHS LHS, RHS)
  else if bool_decide (Kind RHS = DEFAULT) && bool_decide (Kind LHS = COLLAPSED)
  then (LHS, delinearize LHS RHS)
  else (LHS, RHS).

(** [MemoryLocationRangeEquation::intersect]: the returned optional location
    ([None] is the disjoint signal, [Some MemoryLocationRange_default] the
    imprecise one) and the fragment lists after the call.  The source asserts
    that both pointers are non-null. *)
Definition intersect (LHS RHS : MemoryLocationRange) (LC RC : Fragments)
    (Threshold : Z) : option MemoryLocationRange * Fragments * Fragments :=
  if negb (Ptr LHS =? Ptr RHS) then (None, LC, RC)
  else
    let '(LHS, RHS) := normalize LHS RHS in
    if negb (bool_decide (Kind LHS = COLLAPSED)) &&
       negb (bool_decide (Kind RHS = COLLAPSED))
    then intersectScalar LHS RHS LC RC
    else if negb (bool_decide (Kind LHS = COLLAPSED)) ||
            negb (bool_decide (Kind RHS = COLLAPSED))
    then (Some MemoryLocationRange_default, LC, RC)
    else if negb (Nat.eqb (length (DimList LHS)) (length (DimList RHS)))
    then (Some MemoryLocationRange_default, LC, RC)
    else if bool_decide (LowerBound LHS = LowerBound RHS) &&
            bool_decide (UpperBound LHS = UpperBound RHS) &&
            bool_decide (DimList LHS = DimList RHS)
    then (Some LHS, LC, RC)
    else intersect_loop Threshold LHS RHS 0 (length (DimList LHS)) LHS LC RC.

(** ** Reading results *)

(** The indices of a dimension, in order. *)
Definition dim_elements (d : Dimension) : list Z :=
  map (fun k => Start d + Z.of_nat k * Step d) (seq 0 (Z.to_nat (TripCount d))).

(** The indices covered on axis [I] by a list of fragments. *)
Definition fragments_elements (I : nat) (l : list MemoryLocationRange)
  : list Z :=
  concat (map (fun F => dim_elements (nth I (DimList F) Dimension_default)) l).

(** Exact integer ceiling and floor of a quotient with a positive divisor. *)
Definition ceil_div (n b : Z) : Z := - ((- n) / b).
Definition floor_div (n b : Z) : Z := n / b.

(** The parameter window as the specification words it: "exact integer
    floor/ceiling division". *)
Definition window_exact (A B C D : Z) (XRange YRange : Z * Z) : Z * Z :=
  (Z.max (ceil_div (fst XRange - A) B) (ceil_div (fst YRange - C) D),
   Z.min (floor_div (snd XRange - A) B) (floor_div (snd YRange - C) D)).

(** The double-precision rounding of the window of one axis agrees with the
    exact one (vacuously so when the solver reports no solution). *)
Definition rounding_exact (Left Right : Dimension) : Prop :=
  match solve (Step Left) (- Step Right) (Start Right - Start Left) with
  | None => True
  | Some (LineX, LineY) =>
      let XRange := (0, TripCount Left - 1) in
      let YRange := (0, TripCount Right - 1) in
      window (Constant LineX) (- RHS_Value LineX)
             (Constant LineY) (- RHS_Value LineY) XRange YRange =
      window_exact (Constant LineX) (- RHS_Value LineX)
                   (Constant LineY) (- RHS_Value LineY) XRange YRange
  end.

(** Two half-open intervals overlap when each begins before the other ends;
    this is the test of [intersectScalar]. *)
Definition overlaps (LL LU RL RU : Z) : Prop := RL < LU /\ LL < RU.

(** A point, one index per axis, lies in a collapsed location. *)
Definition loc_mem (F : MemoryLocationRange) (pt : list Z) : Prop :=
  Forall2 dim_mem (DimList F) pt.

(** [F] is a copy of [Side] in which the dimension of axis [I], and nothing
    else, is replaced by [Comp]. *)
Definition axis_copy (Side : MemoryLocationRange) (I : nat) (Comp : Dimension)
    (F : MemoryLocationRange) : Prop :=
  F = set_DimList Side (<[I := Comp]> (DimList Side)).

(** The marker that stands for the unrefined rest of a side. *)
Definition non_collapsable_marker (Side : MemoryLocationRange)
  : MemoryLocationRange :=
  mkLoc (Ptr Side) NON_COLLAPSABLE (LowerBound Side) (UpperBound Side) [].

(** What the axis step returns, read as sets of indices. *)
Definition axis_correct (Left Right : Dimension) (r : AxisResult) : Prop :=
  match r with
  | AxisImprecise => DimSize Left <> DimSize Right
  | AxisDisjoint =>
      DimSize Left = DimSize Right /\
      forall e, ~ (dim_mem Left e /\ dim_mem Right e)
  | AxisInt d =>
      DimSize Left = DimSize Right /\
      DimSize d = DimSize Left /\
      Step d = Step Left * (Step Right / Z.gcd (Step Left) (Step Right)) /\
      0 < Step d /\ 0 < TripCount d /\
      forall e, dim_mem d e <-> dim_mem Left e /\ dim_mem Right e
  end.

(** The assertion of the axis loop on the steps of a pair of dimensions,
    together with exact rounding in both orders. *)
Definition axis_ok (Left Right : Dimension) : Prop :=
  0 < Step Left /\ 0 < Step Right /\
  rounding_exact Left Right /\ rounding_exact Right Left.

Definition axes_ok (LHS RHS : MemoryLocationRange) : Prop :=
  forall I : nat,
    (I < length (DimList LHS))%nat ->
    axis_ok (nth I (DimList LHS) Dimension_default)
            (nth I (DimList RHS) Dimension_default).

(** Two returned locations describe the same region: the same base, both the
    imprecise sentinel or neither, and the same dimension list (collapsed) or
    the same bounds (flat). *)
Definition same_region (x y : MemoryLocationRange) : Prop :=
  Ptr x = Ptr y /\
  (x = MemoryLocationRange_default <-> y = MemoryLocationRange_default) /\
  ((Kind x = COLLAPSED /\ Kind y = COLLAPSED /\ DimList x = DimList y) \/
   (Kind x <> COLLAPSED /\ Kind y <> COLLAPSED /\
    LowerBound x = LowerBound y /\ UpperBound x = UpperBound y)).

Definition same_outcome (r1 r2 : option MemoryLocationRange) : Prop :=
  match r1, r2 with
  | None, None => True
  | Some x, Some y => same_region x y
  | _, _ => False
  end.

(** The results of two calls with the arguments exchanged agree: the same
    outcome, and each side's fragment list is the same in both calls. *)
Definition swapped_results
    (R1 R2 : option MemoryLocationRange * Fragments * Fragments) : Prop :=
  same_outcome (fst (fst R1)) (fst (fst R2)) /\
  snd (fst R1) = snd R2 /\
  snd R1 = snd (fst R2).

(** The two intersections under construction agree on every axis that the
    loop has already passed. *)
Definition loop_inv (I n : nat) (IntA IntB : MemoryLocationRange) : Prop :=
  Ptr IntA = Ptr IntB /\ Kind IntA = COLLAPSED /\ Kind IntB = COLLAPSED /\
  length (DimList IntA) = (I + n)%nat /\ length (DimList IntB) = (I + n)%nat /\
  forall J : nat, (J < I)%nat -> DimList IntA !! J = DimList IntB !! J.

(** *** The shapes of a delinearizable access *)

Section Shapes.
Variables (From : MemoryLocationRange) (Lower Upper ElemSize : Z).

Let Sizes := SizesInBytes (DimList From) ElemSize.
Let DimN := length (DimList From).

(** The vectors [LowerIdx] and [UpperIdx] of the source. *)
Definition LowerIdx : list Z := indices Lower Sizes.
Definition UpperIdx : list Z := indices (Upper - 1) Sizes.

(** The index recovered on axis [I] for the first byte and for the last
    byte of the access. *)
Definition lower_index (I : nat) : Z := nth I LowerIdx 0.
Definition upper_index (I : nat) : Z := nth I UpperIdx 0.

(** The access spans the whole of axis [I]. *)
Definition spans_axis (I : nat) : Prop :=
  lower_index I = 0 /\
  wrap64 (upper_index I + 1) = DimSize (nth I (DimList From) Dimension_default).

(** (a): the innermost axis and every axis strictly between the outermost
    and the innermost one are spanned. *)
Definition shape_full : Prop :=
  spans_axis (DimN - 1) /\
  forall I : nat, (1 <= I < DimN - 1)%nat -> spans_axis I.

(** (b): every axis but the innermost has the same index at both ends. *)
Definition shape_row : Prop :=
  forall I : nat, (I < DimN - 1)%nat -> lower_index I = upper_index I.

(** The dimension written for axis [I] on success. *)
Definition recovered_dim (I : nat) : Dimension :=
  mkDim (lower_index I) 1 (wrap64 (upper_index I - lower_index I + 1))
        (DimSize (nth I (DimList From) Dimension_default)).
End Shapes.

(** The preconditions of delinearization. *)
Record delinearize_pre (From What : MemoryLocationRange)
    (Lower Upper ElemSize : Z) : Prop := {
  pre_What_kind : Kind What = DEFAULT;
  pre_From_kind : Kind From = COLLAPSED;
  pre_Lower : LowerBound What = Some Lower;
  pre_Upper : UpperBound What = Some Upper;
  pre_nonempty : Lower < Upper;
  pre_dims : DimList From <> [];
  pre_ElemSize : UpperBound From = Some ElemSize;
  pre_Lower_aligned : Z.rem Lower ElemSize = 0;
  pre_Upper_aligned : Z.rem Upper ElemSize = 0
}.

(** ** Sample locations *)

Module Samples.

Definition strided_LHS := mkLoc 1 COLLAPSED (Some 0) (Some 4) [mkDim 0 2 5 10].
Definition strided_RHS := mkLoc 1 COLLAPSED (Some 0) (Some 4) [mkDim 0 1 10 10].

Definition scalar_LHS := mkLoc 1 DEFAULT (Some 0) (Some 10) [].
Definition scalar_RHS := mkLoc 1 DEFAULT (Some 5) (Some 15) [].

(** Two axes; the second one is disjoint, or differs in size. *)
Definition grid_LHS := mkLoc 1 COLLAPSED (Some 0) (Some 4)
  [mkDim 0 1 4 8; mkDim 0 1 2 10].
Definition grid_RHS_disjoint := mkLoc 1 COLLAPSED (Some 0) (Some 4)
  [mkDim 2 1 4 8; mkDim 5 1 2 10].
Definition grid_RHS_resized := mkLoc 1 COLLAPSED (Some 0) (Some 4)
  [mkDim 2 1 4 8; mkDim 0 1 2 12].

(** Two axes that both leave a part of the left side over. *)
Definition square_LHS := mkLoc 1 COLLAPSED (Some 0) (Some 4)
  [mkDim 0 1 4 8; mkDim 0 1 4 8].
Definition square_RHS := mkLoc 1 COLLAPSED (Some 0) (Some 4)
  [mkDim 2 1 4 8; mkDim 2 1 4 8].

(** The marker left for the right side of the strided example when the
    budget is exceeded. *)
Definition strided_marker := non_collapsable_marker strided_RHS.

(** A dense axis against every tenth element of it. *)
Definition dense_LHS := mkLoc 1 COLLAPSED (Some 0) (Some 4) [mkDim 0 1 100 100].
Definition sparse_RHS := mkLoc 1 COLLAPSED (Some 0) (Some 4)
  [mkDim 0 10 10 100].

(** A 2 x 2 x 2 array of one-byte elements and the flat range of its row
    [[0][1][0..1]]. *)
Definition cube := mkLoc 1 COLLAPSED (Some 0) (Some 1)
  [mkDim 0 1 2 2; mkDim 0 1 2 2; mkDim 0 1 2 2].
Definition cube_row := mkLoc 1 DEFAULT (Some 2) (Some 4) [].

(** A 4 x 8 array of four-byte elements, the flat range of its rows 1 and 2
    and the flat range of the elements [[3][2..5]]. *)
Definition matrix := mkLoc 1 COLLAPSED (Some 0) (Some 4)
  [mkDim 0 1 4 4; mkDim 0 1 8 8].
Definition matrix_rows := mkLoc 1 DEFAULT (Some 32) (Some 96) [].
Definition matrix_part := mkLoc 1 DEFAULT (Some 104) (Some 120) [].

(** Indices beyond [2^53]: the even indices below [2^55] against the single
    odd index [2^54 + 1]. *)
Definition even_dim := mkDim 0 2 (2 ^ 54) 0.
Definition odd_dim := mkDim (2 ^ 54 + 1) 3 1 0.
Definition even_LHS := mkLoc 1 COLLAPSED (Some 0) (Some 4) [even_dim].
Definition odd_RHS := mkLoc 1 COLLAPSED (Some 0) (Some 4) [odd_dim].

(** The indices [0; 2] against the index [1]: the extents overlap and the
    equation has integer solutions, none of them inside both ranges. *)
Definition pair_dim := mkDim 0 2 2 10.
Definition single_dim := mkDim 1 3 1 10.
Definition pair_LHS := mkLoc 1 COLLAPSED (Some 0) (Some 4) [pair_dim].
Definition single_RHS := mkLoc 1 COLLAPSED (Some 0) (Some 4) [single_dim].

(** Dense axes of more than [2^53] elements. *)
Definition long_dim := mkDim 0 1 (2 ^ 53 + 2) 0.
Definition longer_dim := mkDim 0 1 (2 ^ 53 + 3) 0.
Definition shifted_dim := mkDim 1 1 (2 ^ 53 + 1) 0.
Definition long_LHS := mkLoc 1 COLLAPSED (Some 0) (Some 4) [long_dim].
Definition shifted_RHS := mkLoc 1 COLLAPSED (Some 0) (Some 4) [shifted_dim].

End Samples.

(** ** Sets of bytes and of indices *)

(** A byte offset lies in the flat interval of a location; an absent bound
    leaves that side open. *)
Definition in_range (L : MemoryLocationRange) (x : Z) : Prop :=
  (forall lo, LowerBound L = Some lo -> lo <= x) /\
  (forall hi, UpperBound L = Some hi -> x < hi).

(** The test of [intersectScalar] on incomplete bounds: the bounds that are
    present already put one interval at or beyond the end of the other. *)
Definition provably_apart (LHS RHS : MemoryLocationRange) : Prop :=
  (exists u l, UpperBound LHS = Some u /\ LowerBound RHS = Some l /\ u <= l) \/
  (exists l u, LowerBound LHS = Some l /\ UpperBound RHS = Some u /\ u <= l).

Definition fully_bounded (L : MemoryLocationRange) : Prop :=
  is_Some (LowerBound L) /\ is_Some (UpperBound L).

(** An index lies in one of the dimensions of a list. *)
Definition covers (l : list Dimension) (e : Z) : Prop :=
  Exists (fun d => dim_mem d e) l.

(** The precondition of [difference], "I is a subset of D": [I] starts at
    the element of [D] with number [a], its step is [m] steps of [D], and
    its last element is not beyond the last element of [D]. *)
Record sub_dimension (D I : Dimension) (a m : Z) : Prop := {
  sub_step_pos : 0 < Step D;
  sub_first : 0 <= a;
  sub_Start : Start I = Start D + a * Step D;
  sub_ratio : 1 <= m;
  sub_Step : Step I = m * Step D;
  sub_count : 0 < TripCount I;
  sub_last : a + m * (TripCount I - 1) <= TripCount D - 1
}.

(** ** Further sample locations *)

Module Cases.

(** Ten elements with step 3 inside forty consecutive indices, and the same
    axis against two far elements. *)
Definition span_dim := mkDim 0 1 40 40.
Definition comb_dim := mkDim 5 3 10 40.
Definition ends_dim := mkDim 5 9 2 40.

End Cases.

(** * Properties *)

(** ** The strided example *)

(** C1 (failing input): on the strided example the driver returns the
    intersection [{Start=0, Step=2, TripCount=5}] and leaves [LC] empty, but
    the fragments appended to [RC] cover the indices [9; 1; 2; 3; 4] rather
    than the odd indices: the centre fragment takes the stride of the
    containing dimension. *)
Theorem C1_strided_example_RC :
  let '(Int, LC, RC) :=
    intersect Samples.strided_LHS Samples.strided_RHS (Some []) (Some []) 16 in
  Int = Some (mkLoc 1 COLLAPSED (Some 0) (Some 4) [mkDim 0 2 5 10]) /\
  LC = Some [] /\
  RC = Some [mkLoc 1 COLLAPSED (Some 0) (Some 4) [mkDim 9 1 1 10];
             mkLoc 1 COLLAPSED (Some 0) (Some 4) [mkDim 1 1 4 10]] /\
  fragments_elements 0 (default [] RC) = [9; 1; 2; 3; 4].
Proof. vm_compute. repeat split. Qed.

(** ** Self-intersection *)

Lemma normalize_collapsed (A B : MemoryLocationRange) :
  Kind A = COLLAPSED -> Kind B = COLLAPSED -> normalize A B = (A, B).
Proof.
  intros HA HB. unfold normalize.
  rewrite HA, HB. reflexivity.
Qed.

(** C5: intersecting a [COLLAPSED] location with itself returns it unchanged
    and appends nothing to either fragment list. *)
Theorem C5_self_intersection (A : MemoryLocationRange) (LC RC : Fragments)
    (Threshold : Z) :
  Ptr A <> 0 -> Kind A = COLLAPSED ->
  intersect A A LC RC Threshold = (Some A, LC, RC).
Proof.
  intros _ HK. unfold intersect.
  rewrite Z.eqb_refl. cbn [negb].
  rewrite (normalize_collapsed A A HK HK).
  rewrite HK. cbn [negb andb orb].
  rewrite (bool_decide_eq_true_2 (COLLAPSED = COLLAPSED) eq_refl).
  cbn [negb andb orb].
  rewrite Nat.eqb_refl. cbn [negb].
  rewrite !bool_decide_eq_true_2 by reflexivity.
  reflexivity.
Qed.

Lemma C5_self_intersection_witness :
  intersect Samples.strided_LHS Samples.strided_LHS (Some []) None 3 =
  (Some Samples.strided_LHS, Some [], None).
Proof.
  apply (C5_self_intersection Samples.strided_LHS (Some []) None 3).
  - vm_compute. discriminate.
  - reflexivity.
Defined.

(** ** Flat intervals *)

Lemma overlaps_common_point (LL LU RL RU : Z) :
  LL < LU -> RL < RU ->
  overlaps LL LU RL RU <-> exists x, (LL <= x < LU) /\ (RL <= x < RU).
Proof.
  intros HL HR. unfold overlaps. split.
  - intros [H1 H2]. exists (Z.max LL RL). lia.
  - intros [x [H1 H2]]. lia.
Qed.

Lemma scalar_leftover_length (Side : MemoryLocationRange) (SL SU IL IU : Z) :
  (length (scalar_leftover Side SL SU IL IU) <= 2)%nat.
Proof.
  unfold scalar_leftover.
  destruct (SL <? IL), (SU >? IU); cbn; lia.
Qed.

Lemma intersectScalar_overlap (LHS RHS : MemoryLocationRange)
    (LC RC : Fragments) (LL LU RL RU : Z) :
  Ptr LHS = Ptr RHS ->
  LowerBound LHS = Some LL -> UpperBound LHS = Some LU ->
  LowerBound RHS = Some RL -> UpperBound RHS = Some RU ->
  overlaps LL LU RL RU ->
  intersectScalar LHS RHS LC RC =
    (Some (mkLoc (Ptr LHS) (Kind LHS) (Some (Z.max LL RL)) (Some (Z.min LU RU))
                 (DimList LHS)),
     emplace_back LC (scalar_leftover LHS LL LU (Z.max LL RL) (Z.min LU RU)),
     emplace_back RC (scalar_leftover RHS RL RU (Z.max LL RL) (Z.min LU RU))).
Proof.
  intros HP H1 H2 H3 H4 [Ha Hb]. unfold intersectScalar.
  rewrite HP, Z.eqb_refl, H1, H2, H3, H4. cbn [negb].
  replace (LU >? RL) with true by (symmetry; apply Z.gtb_lt; lia).
  replace (LL <? RU) with true by (symmetry; apply Z.ltb_lt; lia).
  cbn [andb]. unfold set_UpperBound, set_LowerBound. cbn.
  rewrite HP. reflexivity.
Qed.

Lemma intersectScalar_disjoint (LHS RHS : MemoryLocationRange)
    (LC RC : Fragments) (LL LU RL RU : Z) :
  Ptr LHS = Ptr RHS ->
  LowerBound LHS = Some LL -> UpperBound LHS = Some LU ->
  LowerBound RHS = Some RL -> UpperBound RHS = Some RU ->
  ~ overlaps LL LU RL RU ->
  intersectScalar LHS RHS LC RC = (None, LC, RC).
Proof.
  intros HP H1 H2 H3 H4 Hno. unfold intersectScalar.
  rewrite HP, Z.eqb_refl, H1, H2, H3, H4. cbn [negb].
  destruct (Z.gtb_spec LU RL) as [Ha|Ha]; [|reflexivity].
  destruct (Z.ltb_spec LL RU) as [Hb|Hb]; [|reflexivity].
  exfalso. apply Hno. split; lia.
Qed.

Lemma normalize_default (A B : MemoryLocationRange) :
  Kind A = DEFAULT -> Kind B = DEFAULT -> normalize A B = (A, B).
Proof.
  intros HA HB. unfold normalize.
  rewrite HA, HB. reflexivity.
Qed.

Lemma intersect_default (LHS RHS : MemoryLocationRange) (LC RC : Fragments)
    (Threshold : Z) :
  Ptr LHS = Ptr RHS -> Kind LHS = DEFAULT -> Kind RHS = DEFAULT ->
  intersect LHS RHS LC RC Threshold = intersectScalar LHS RHS LC RC.
Proof.
  intros HP HL HR. unfold intersect.
  rewrite HP, Z.eqb_refl, (normalize_default LHS RHS HL HR).
  rewrite HL, HR. reflexivity.
Qed.



(** ** The budget of the complement generator *)

Lemma wrap64_small (x : Z) : 0 <= x < 2 ^ 64 -> wrap64 x = x.
Proof. intros H. unfold wrap64. apply Z.mod_small. exact H. Qed.

Lemma difference_overflow (D I : Dimension) (Res : list Dimension)
    (Threshold : Z) :
  TripCount I > 1 -> 0 <= Threshold ->
  Threshold < Step I ÷ Step D - 1 < 2 ^ 64 ->
  difference D I Res Threshold =
    (false, (Res ++ left_fragment D I) ++ right_fragment D I).
Proof.
  intros HT H0 HR. unfold difference.
  replace (TripCount I >? 1) with true by (symmetry; apply Z.gtb_lt; lia).
  rewrite wrap64_small by lia.
  replace (Step I ÷ Step D - 1 >? Threshold) with true
    by (symmetry; apply Z.gtb_lt; lia).
  reflexivity.
Qed.

(** One turn of the axis loop that finds an intersection on axis [I]. *)
Lemma intersect_loop_step (Threshold : Z) (LHS RHS : MemoryLocationRange)
    (I n : nat) (Int : MemoryLocationRange) (LC RC : Fragments)
    (d : Dimension) :
  let Left := nth I (DimList LHS) Dimension_default in
  let Right := nth I (DimList RHS) Dimension_default in
  intersect_axis Left Right = AxisInt d ->
  intersect_loop Threshold LHS RHS I (S n) Int LC RC =
  intersect_loop Threshold LHS RHS (S I) n
    (set_DimList Int (<[I := d]> (DimList Int)))
    (emplace_back LC (axis_fragments LHS Left d I Threshold))
    (emplace_back RC (axis_fragments RHS Right d I Threshold)).
Proof.
  intros Left Right H. cbn [intersect_loop]. fold Left Right.
  rewrite H. reflexivity.
Qed.



(** ** Fragments of the axis loop *)

(** C9: the disjoint and the imprecise outcomes can come with fragment lists
    that have already grown: on the first pair the second axis is disjoint,
    on the second pair it differs in [DimSize], and in both cases the first
    axis has left one fragment in each list. *)
Theorem C9_fragments_before_early_exit :
  intersect Samples.grid_LHS Samples.grid_RHS_disjoint (Some []) (Some []) 16 =
    (None,
     Some [mkLoc 1 COLLAPSED (Some 0) (Some 4)
                 [mkDim 0 1 2 8; mkDim 0 1 2 10]],
     Some [mkLoc 1 COLLAPSED (Some 0) (Some 4)
                 [mkDim 4 1 2 8; mkDim 5 1 2 10]]) /\
  intersect Samples.grid_LHS Samples.grid_RHS_resized (Some []) (Some []) 16 =
    (Some MemoryLocationRange_default,
     Some [mkLoc 1 COLLAPSED (Some 0) (Some 4)
                 [mkDim 0 1 2 8; mkDim 0 1 2 10]],
     Some [mkLoc 1 COLLAPSED (Some 0) (Some 4)
                 [mkDim 4 1 2 8; mkDim 0 1 2 12]]).
Proof. split; vm_compute; reflexivity. Qed.

Lemma axis_fragments_shape (Side : MemoryLocationRange) (D d : Dimension)
    (I : nat) (Threshold : Z) (F : MemoryLocationRange) :
  In F (axis_fragments Side D d I Threshold) ->
  (fst (difference D d [] Threshold) = false /\
   F = non_collapsable_marker Side) \/
  (fst (difference D d [] Threshold) = true /\
   exists Comp,
     In Comp (snd (difference D d [] Threshold)) /\ axis_copy Side I Comp F).
Proof.
  unfold axis_fragments.
  destruct (difference D d [] Threshold) as [[|] Compl]; cbn [fst snd].
  - intros HF. right. split; [reflexivity|].
    apply in_map_iff in HF. destruct HF as [Comp [E HIn]].
    exists Comp. split; [exact HIn|]. unfold axis_copy. symmetry. exact E.
  - intros [E|[]]. left. split; [reflexivity|]. symmetry. exact E.
Qed.

Lemma axis_copy_frame (Side : MemoryLocationRange) (I : nat) (Comp : Dimension)
    (F : MemoryLocationRange) :
  axis_copy Side I Comp F ->
  Ptr F = Ptr Side /\ Kind F = Kind Side /\
  LowerBound F = LowerBound Side /\ UpperBound F = UpperBound Side /\
  length (DimList F) = length (DimList Side) /\
  (forall J : nat, J <> I -> DimList F !! J = DimList Side !! J) /\
  ((I < length (DimList Side))%nat -> DimList F !! I = Some Comp).
Proof.
  unfold axis_copy. intros ->. cbn.
  repeat split.
  - apply length_insert.
  - intros J HJ. apply list_lookup_insert_ne. congruence.
  - intros HI. apply list_lookup_insert_eq. exact HI.
Qed.

(** C10, as stated, fails when the budget is exceeded: the one fragment the
    driver appends for the axis is then no copy of the side with a replaced
    dimension. *)
Lemma C10_counterexample :
  exists F,
    In F (default [] (snd (fst (intersect Samples.dense_LHS Samples.sparse_RHS
                                  (Some []) (Some []) 3)))) /\
    forall Comp, ~ axis_copy Samples.dense_LHS 0 Comp F.
Proof.
  exists (non_collapsable_marker Samples.dense_LHS). split.
  - vm_compute. left. reflexivity.
  - intros Comp H. apply axis_copy_frame in H.
    destruct H as [_ [H _]]. discriminate H.
Qed.

(** C10 (amended): in a turn of the axis loop that finds an intersection on
    axis [I], each list receives the fragments of its side; a fragment is
    either the [NON_COLLAPSABLE] marker of the side, when [difference] reports
    that the budget is exceeded, or a copy of the side in which the dimension
    of axis [I] alone is replaced by a piece that [difference] produced, every
    other axis keeping the side's own dimension.  Fragments of different axes
    can share points: for the square sample the two fragments of the left
    side both contain the point [(0, 0)]. *)
Theorem C10_fragment_frame :
  (forall (Threshold : Z) (LHS RHS : MemoryLocationRange) (I n : nat)
          (Int : MemoryLocationRange) (lc rc : list MemoryLocationRange)
          (d : Dimension),
      let Left := nth I (DimList LHS) Dimension_default in
      let Right := nth I (DimList RHS) Dimension_default in
      intersect_axis Left Right = AxisInt d ->
      exists newL newR,
        intersect_loop Threshold LHS RHS I (S n) Int (Some lc) (Some rc) =
        intersect_loop Threshold LHS RHS (S I) n
          (set_DimList Int (<[I := d]> (DimList Int)))
          (Some (lc ++ newL)) (Some (rc ++ newR)) /\
        (forall F, In F newL ->
           (fst (difference Left d [] Threshold) = false /\
            F = non_collapsable_marker LHS) \/
           (fst (difference Left d [] Threshold) = true /\
            exists Comp,
              In Comp (snd (difference Left d [] Threshold)) /\
              F = set_DimList LHS (<[I := Comp]> (DimList LHS)) /\
              forall J : nat, J <> I -> DimList F !! J = DimList LHS !! J)) /\
        (forall F, In F newR ->
           (fst (difference Right d [] Threshold) = false /\
            F = non_collapsable_marker RHS) \/
           (fst (difference Right d [] Threshold) = true /\
            exists Comp,
              In Comp (snd (difference Right d [] Threshold)) /\
              F = set_DimList RHS (<[I := Comp]> (DimList RHS)) /\
              forall J : nat, J <> I -> DimList F !! J = DimList RHS !! J))) /\
  (exists F0 F1,
      snd (fst (intersect Samples.square_LHS Samples.square_RHS
                  (Some []) (Some []) 16)) = Some [F0; F1] /\
      DimList F0 = [mkDim 0 1 2 8; mkDim 0 1 4 8] /\
      DimList F1 = [mkDim 0 1 4 8; mkDim 0 1 2 8] /\
      loc_mem F0 [0; 0] /\ loc_mem F1 [0; 0]).
Proof.
  split.
  - intros Threshold LHS RHS I n Int lc rc d Left Right Hax.
    exists (axis_fragments LHS Left d I Threshold),
           (axis_fragments RHS Right d I Threshold).
    split.
    { exact (intersect_loop_step Threshold LHS RHS I n Int
               (Some lc) (Some rc) d Hax). }
    split; intros F HF; apply axis_fragments_shape in HF;
      destruct HF as [[Hov ->]|[Hin [Comp [HIn Hc]]]];
      try (left; split; [exact Hov | reflexivity]);
      right; (split; [exact Hin|]);
      exists Comp; (split; [exact HIn|]); (split; [exact Hc|]);
      apply axis_copy_frame in Hc; apply Hc.
  - eexists _, _. split; [vm_compute; reflexivity|].
    split; [reflexivity|]. split; [reflexivity|].
    assert (P0 : dim_mem (mkDim 0 1 2 8) 0) by (exists 0; cbn; lia).
    assert (P1 : dim_mem (mkDim 0 1 4 8) 0) by (exists 0; cbn; lia).
    split; unfold loc_mem; cbn; repeat constructor; assumption.
Qed.

Lemma C10_fragment_frame_witness :
  exists newL newR,
    intersect_loop 16 Samples.square_LHS Samples.square_RHS 0 2
      Samples.square_LHS (Some []) (Some []) =
    intersect_loop 16 Samples.square_LHS Samples.square_RHS 1 1
      (set_DimList Samples.square_LHS
         (<[0%nat := mkDim 2 1 2 8]> (DimList Samples.square_LHS)))
      (Some ([] ++ newL)) (Some ([] ++ newR)) /\
    (forall F, In F newL ->
       Kind F = NON_COLLAPSABLE \/
       DimList F !! 1%nat = DimList Samples.square_LHS !! 1%nat).
Proof.
  destruct (proj1 C10_fragment_frame 16 Samples.square_LHS Samples.square_RHS
              0%nat 1%nat Samples.square_LHS [] [] (mkDim 2 1 2 8))
    as [newL [newR [E [HL _]]]].
  - vm_compute. reflexivity.
  - exists newL, newR. split; [exact E|].
    intros F HF. destruct (HL F HF) as [[_ ->]|[_ [Comp [_ [_ Hfr]]]]].
    + left. reflexivity.
    + right. apply Hfr. discriminate.
Defined.

(** ** Delinearization *)

Example delinearize_matrix_rows :
  delinearize Samples.matrix Samples.matrix_rows =
  mkLoc 1 COLLAPSED (Some 32) (Some 96) [mkDim 1 1 2 4; mkDim 0 1 8 8].
Proof. reflexivity. Qed.

Example delinearize_matrix_part :
  delinearize Samples.matrix Samples.matrix_part =
  mkLoc 1 COLLAPSED (Some 104) (Some 120) [mkDim 3 1 1 4; mkDim 2 1 4 8].
Proof. reflexivity. Qed.

Example delinearize_cube_row :
  delinearize Samples.cube Samples.cube_row = Samples.cube_row.
Proof. reflexivity. Qed.

Section Delinearize.
Variables (From What : MemoryLocationRange) (Lower Upper ElemSize : Z).
Hypothesis Pre : delinearize_pre From What Lower Upper ElemSize.

Lemma delinearize_unfold :
  delinearize From What =
  if delinearize_shape From (LowerIdx From Lower ElemSize)
                       (UpperIdx From Upper ElemSize)
  then set_Kind
         (set_DimList What
            (delinearized_dims From (LowerIdx From Lower ElemSize)
                               (UpperIdx From Upper ElemSize)))
         COLLAPSED
  else What.
Proof.
  destruct Pre as [HW HF HL HU Hlt Hd He Hra Hrb].
  unfold delinearize, LowerIdx, UpperIdx. rewrite HW, HF, HL, HU, He, Hra, Hrb.
  rewrite !bool_decide_eq_true_2 by reflexivity. cbn [negb orb].
  replace (Lower >=? Upper) with false
    by (symmetry; rewrite Z.geb_leb; apply Z.leb_gt; lia).
  assert (Hn : Nat.eqb (length (DimList From)) 0 = false)
    by (destruct (DimList From); [congruence | reflexivity]).
  rewrite Hn. reflexivity.
Qed.

Lemma full_span_spec (I : nat) :
  full_span From (LowerIdx From Lower ElemSize)
            (UpperIdx From Upper ElemSize) I = true <->
  spans_axis From Lower Upper ElemSize I.
Proof.
  unfold full_span, spans_axis, lower_index, upper_index.
  rewrite andb_true_iff, !Z.eqb_eq. reflexivity.
Qed.

Lemma same_index_spec (I : nat) :
  same_index (LowerIdx From Lower ElemSize)
             (UpperIdx From Upper ElemSize) I = true <->
  lower_index From Lower ElemSize I = upper_index From Upper ElemSize I.
Proof.
  unfold same_index, lower_index, upper_index. apply Z.eqb_eq.
Qed.

(** The decision of the source: shape (a), or shape (b) provided the
    innermost axis is not spanned. *)
Lemma delinearize_shape_spec :
  delinearize_shape From (LowerIdx From Lower ElemSize)
                    (UpperIdx From Upper ElemSize) = true <->
  shape_full From Lower Upper ElemSize \/
  (~ spans_axis From Lower Upper ElemSize (length (DimList From) - 1) /\
   shape_row From Lower Upper ElemSize).
Proof.
  unfold delinearize_shape, shape_full, shape_row.
  destruct (full_span From (LowerIdx From Lower ElemSize)
                      (UpperIdx From Upper ElemSize)
                      (length (DimList From) - 1)) eqn:E.
  - apply full_span_spec in E.
    rewrite forallb_forall. split.
    + intros H. left. split; [exact E|].
      intros I HI. apply full_span_spec, H, in_seq. lia.
    + intros [[_ H]|[Hn _]]; [|contradiction].
      intros I HI. apply in_seq in HI. apply full_span_spec, H. lia.
  - assert (Hn : ~ spans_axis From Lower Upper ElemSize
                     (length (DimList From) - 1)).
    { intros H. apply full_span_spec in H. congruence. }
    rewrite forallb_forall. split.
    + intros H. right. split; [exact Hn|].
      intros I HI. apply same_index_spec, H, in_seq. lia.
    + intros [[H _]|[_ H]]; [contradiction|].
      intros I HI. apply in_seq in HI. apply same_index_spec, H. lia.
Qed.

Lemma delinearized_dims_lookup (I : nat) :
  (I < length (DimList From))%nat ->
  delinearized_dims From (LowerIdx From Lower ElemSize)
                    (UpperIdx From Upper ElemSize) !! I =
  Some (recovered_dim From Lower Upper ElemSize I).
Proof.
  intros HI. unfold delinearized_dims.
  rewrite list_lookup_fmap.
  rewrite lookup_seq_lt by exact HI. reflexivity.
Qed.

Lemma delinearized_dims_length :
  length (delinearized_dims From (LowerIdx From Lower ElemSize)
                            (UpperIdx From Upper ElemSize)) =
  length (DimList From).
Proof.
  unfold delinearized_dims. rewrite length_map, length_seq. reflexivity.
Qed.
End Delinearize.

Lemma delinearize_no_pre (From What : MemoryLocationRange) :
  (~ exists Lower Upper ElemSize,
       delinearize_pre From What Lower Upper ElemSize) ->
  delinearize From What = What.
Proof.
  intros Hno. unfold delinearize.
  destruct (bool_decide (Kind What = DEFAULT)) eqn:EW; [|reflexivity].
  destruct (bool_decide (Kind From = COLLAPSED)) eqn:EF; [|reflexivity].
  apply bool_decide_eq_true_1 in EW, EF. cbn [negb orb].
  destruct (LowerBound What) as [Lower|] eqn:EL; [|reflexivity].
  destruct (UpperBound What) as [Upper|] eqn:EU; [|reflexivity].
  destruct (Lower >=? Upper) eqn:Ege; [reflexivity|].
  destruct (Nat.eqb (length (DimList From)) 0) eqn:En; [reflexivity|].
  destruct (UpperBound From) as [ElemSize|] eqn:EE; [|reflexivity].
  destruct (Z.eqb_spec (Z.rem Lower ElemSize) 0) as [Ha|Ha]; [|reflexivity].
  destruct (Z.eqb_spec (Z.rem Upper ElemSize) 0) as [Hb|Hb]; [|reflexivity].
  exfalso. apply Hno. exists Lower, Upper, ElemSize.
  rewrite Z.geb_leb in Ege. apply Z.leb_gt in Ege.
  apply Nat.eqb_neq in En.
  constructor; try assumption.
  intros E. rewrite E in En. apply En. reflexivity.
Qed.




(** ** The solver *)

Lemma egcd_fuel_bezout (n : nat) (a b : Z) :
  let '(g, u, v) := egcd_fuel n a b in a * u + b * v = g.
Proof.
  revert a b. induction n as [|n IH]; intros a b; cbn [egcd_fuel].
  - lia.
  - destruct (Z.eqb_spec b 0) as [->|Hb]; [lia|].
    specialize (IH b (a mod b)).
    destruct (egcd_fuel n b (a mod b)) as [[g u] v].
    pose proof (Z.div_mod a b Hb) as Hdm. nia.
Qed.

Lemma egcd_fuel_S (n : nat) (a b : Z) :
  egcd_fuel (S n) a b =
  if b =? 0 then (a, 1, 0)
  else let '(g, u, v) := egcd_fuel n b (a mod b) in (g, v, u - (a / b) * v).
Proof. reflexivity. Qed.

Lemma egcd_fuel_gcd (n : nat) (a b : Z) :
  0 <= b <= a -> a * b < 2 ^ Z.of_nat n ->
  fst (fst (egcd_fuel (S n) a b)) = Z.gcd a b.
Proof.
  revert a b. induction n as [|n IH]; intros a b Hab Hlt.
  - assert (b = 0) by nia. subst b. cbn. rewrite Z.gcd_0_r. lia.
  - rewrite egcd_fuel_S.
    destruct (Z.eqb_spec b 0) as [->|Hb].
    + cbn. rewrite Z.gcd_0_r. lia.
    + assert (Hr : 0 <= a mod b < b) by (apply Z.mod_pos_bound; lia).
      assert (Hq : a = b * (a / b) + a mod b) by (apply Z.div_mod; lia).
      assert (Hq1 : 1 <= a / b) by (apply Z.div_le_lower_bound; lia).
      assert (Hlt' : b * (a mod b) < 2 ^ Z.of_nat n).
      { rewrite Nat2Z.inj_succ, Z.pow_succ_r in Hlt by lia. nia. }
      specialize (IH b (a mod b) ltac:(lia) Hlt').
      destruct (egcd_fuel (S n) b (a mod b)) as [[g u] v].
      cbn [fst] in *. rewrite IH.
      rewrite (Z.gcd_comm b (a mod b)), Z.gcd_mod by exact Hb.
      apply Z.gcd_comm.
Qed.

Lemma egcd_fuel_enough (a b : Z) :
  0 <= b <= a ->
  a * b < 2 ^ Z.of_nat (Z.to_nat (Z.log2_up (a * b + 1))).
Proof.
  intros Hab. rewrite Z2Nat.id by apply Z.log2_up_nonneg.
  assert (0 <= a * b) by nia.
  destruct (Z.eq_dec (a * b) 0) as [E|E].
  - pose proof (Z.pow_pos_nonneg 2 (Z.log2_up (a * b + 1)) ltac:(lia)
                  (Z.log2_up_nonneg _)). lia.
  - pose proof (Z.log2_up_spec (a * b + 1) ltac:(lia)). lia.
Qed.

Lemma egcd_nonneg_spec (a b : Z) :
  0 <= a -> 0 <= b ->
  let '(g, u, v) := egcd_nonneg a b in g = Z.gcd a b /\ a * u + b * v = g.
Proof.
  intros Ha Hb. unfold egcd_nonneg.
  destruct (Z.leb_spec b a) as [Hle|Hlt].
  - pose proof (egcd_fuel_gcd _ a b ltac:(lia)
                  (egcd_fuel_enough a b ltac:(lia))) as Hg.
    pose proof (egcd_fuel_bezout
                  (S (Z.to_nat (Z.log2_up (a * b + 1)))) a b) as Hz.
    destruct (egcd_fuel _ a b) as [[g u] v]. cbn [fst] in Hg.
    split; [exact Hg | exact Hz].
  - pose proof (egcd_fuel_gcd _ b a ltac:(lia)
                  (egcd_fuel_enough b a ltac:(lia))) as Hg.
    pose proof (egcd_fuel_bezout
                  (S (Z.to_nat (Z.log2_up (b * a + 1)))) b a) as Hz.
    rewrite (Z.mul_comm a b).
    destruct (egcd_fuel _ b a) as [[g u] v]. cbn [fst] in Hg.
    split; [rewrite Z.gcd_comm; exact Hg|lia].
Qed.

Lemma egcd_spec (a b : Z) :
  let '(g, u, v) := egcd a b in g = Z.gcd a b /\ a * u + b * v = g.
Proof.
  unfold egcd.
  pose proof (egcd_nonneg_spec (Z.abs a) (Z.abs b)
                (Z.abs_nonneg a) (Z.abs_nonneg b)) as H.
  destruct (egcd_nonneg (Z.abs a) (Z.abs b)) as [[g u] v].
  destruct H as [Hg Hz]. rewrite Z.gcd_abs_l, Z.gcd_abs_r in Hg.
  split; [exact Hg|].
  rewrite <- Hz. clear Hg Hz.
  destruct a, b; cbn [Z.sgn Z.abs]; lia.
Qed.

Section Solve.
Variables (K1 K2 c : Z).
Hypotheses (HK1 : 0 < K1) (HK2 : 0 < K2).

Lemma gcd_steps_pos : 0 < Z.gcd K1 K2.
Proof.
  pose proof (Z.gcd_nonneg K1 K2).
  destruct (Z.eq_dec (Z.gcd K1 K2) 0) as [E|E]; [|lia].
  apply Z.gcd_eq_0_l in E. lia.
Qed.

(** The cofactors of the two steps. *)
Lemma steps_cofactors :
  exists k1 k2,
    K1 = Z.gcd K1 K2 * k1 /\ K2 = Z.gcd K1 K2 * k2 /\ 0 < k1 /\ 0 < k2 /\
    K1 / Z.gcd K1 K2 = k1 /\ K2 / Z.gcd K1 K2 = k2 /\
    (- K2) / Z.gcd K1 K2 = - k2.
Proof.
  pose proof gcd_steps_pos as Hg.
  destruct (Z.gcd_divide_l K1 K2) as [k1 E1].
  destruct (Z.gcd_divide_r K1 K2) as [k2 E2].
  set (g := Z.gcd K1 K2) in *.
  exists k1, k2.
  assert (0 < k1) by nia. assert (0 < k2) by nia.
  repeat split; try lia.
  - rewrite E1. apply Z.div_mul. lia.
  - rewrite E2. apply Z.div_mul. lia.
  - replace (- K2) with ((- k2) * g) by lia. apply Z.div_mul. lia.
Qed.

Lemma solve_None :
  solve K1 (- K2) c = None -> forall x y, K1 * x - K2 * y <> c.
Proof.
  unfold solve. pose proof (egcd_spec K1 (- K2)) as He.
  destruct (egcd K1 (- K2)) as [[g' u] v]. destruct He as [Hg Hz].
  rewrite Z.gcd_opp_r in Hg. subst g'.
  pose proof gcd_steps_pos as Hpos.
  destruct steps_cofactors as [k1 [k2 [E1 [E2 _]]]].
  set (g := Z.gcd K1 K2) in *.
  destruct (Z.eqb_spec g 0) as [E|_]; [lia|].
  destruct (Z.eqb_spec (c mod g) 0) as [E|E]; [discriminate|].
  intros _ x y Hxy. apply E.
  replace c with ((k1 * x - k2 * y) * g) by nia.
  apply Z.mod_mul. lia.
Qed.

Lemma solve_Some (LineX LineY : Line) :
  solve K1 (- K2) c = Some (LineX, LineY) ->
  let A := Constant LineX in
  let B := - RHS_Value LineX in
  let C := Constant LineY in
  let D := - RHS_Value LineY in
  B = K2 / Z.gcd K1 K2 /\ D = K1 / Z.gcd K1 K2 /\
  0 < B /\ 0 < D /\ K1 * B = K2 * D /\
  (forall x y,
      K1 * x - K2 * y = c <-> exists t, x = A + B * t /\ y = C + D * t).
Proof.
  unfold solve. pose proof (egcd_spec K1 (- K2)) as He.
  destruct (egcd K1 (- K2)) as [[g' u] v]. destruct He as [Hg Hz].
  rewrite Z.gcd_opp_r in Hg. subst g'.
  pose proof gcd_steps_pos as Hpos.
  destruct steps_cofactors as [k1 [k2 [E1 [E2 [P1 [P2 [D1 [D2 D3]]]]]]]].
  set (g := Z.gcd K1 K2) in *.
  destruct (Z.eqb_spec g 0) as [E|_]; [lia|].
  destruct (Z.eqb_spec (c mod g) 0) as [Hc|Hc]; [|discriminate].
  cbn [negb]. intros [= <- <-]. cbn [Constant RHS_Value].
  rewrite D1, D3, !Z.opp_involutive, D2.
  assert (Hcq : c = g * (c / g)) by (apply Z.div_exact; lia).
  set (q := c / g) in *.
  assert (Hb : k1 * u - k2 * v = 1) by nia.
  split; [reflexivity|]. split; [reflexivity|].
  split; [exact P2|]. split; [exact P1|]. split; [nia|].
  intros x y. split.
  - intros Hxy.
    assert (Hxy' : k1 * (x - u * q) = k2 * (y - v * q)) by nia.
    set (X := x - u * q) in *. set (Y := y - v * q) in *.
    exists (Y * u - v * X).
    assert (HX : X = k2 * (Y * u - v * X)).
    { transitivity (X * (k1 * u - k2 * v)); [rewrite Hb; ring|].
      transitivity (k1 * X * u - k2 * v * X); [ring|].
      rewrite Hxy'. ring. }
    assert (HY : Y = k1 * (Y * u - v * X)).
    { apply (Z.mul_reg_l _ _ k2); [lia|].
      rewrite <- Hxy'. rewrite HX at 1. ring. }
    split; lia.
  - intros [t [-> ->]]. nia.
Qed.
End Solve.

(** ** The exact parameter window *)

Lemma ceil_div_le (n b t : Z) : 0 < b -> ceil_div n b <= t <-> n <= b * t.
Proof.
  intros Hb. unfold ceil_div.
  pose proof (Z.div_mod (- n) b ltac:(lia)) as Hdm.
  pose proof (Z.mod_pos_bound (- n) b Hb) as Hr.
  split; intros H; nia.
Qed.

Lemma floor_div_ge (n b t : Z) : 0 < b -> t <= floor_div n b <-> b * t <= n.
Proof.
  intros Hb. unfold floor_div.
  pose proof (Z.div_mod n b ltac:(lia)) as Hdm.
  pose proof (Z.mod_pos_bound n b Hb) as Hr.
  split; intros H; nia.
Qed.

Lemma window_exact_spec (A B C D n1 n2 t : Z) :
  0 < B -> 0 < D ->
  fst (window_exact A B C D (0, n1 - 1) (0, n2 - 1)) <= t <=
  snd (window_exact A B C D (0, n1 - 1) (0, n2 - 1)) <->
  (0 <= A + B * t <= n1 - 1) /\ (0 <= C + D * t <= n2 - 1).
Proof.
  intros HB HD. unfold window_exact. cbn [fst snd].
  pose proof (ceil_div_le (0 - A) B t HB).
  pose proof (ceil_div_le (0 - C) D t HD).
  pose proof (floor_div_ge (n1 - 1 - A) B t HB).
  pose proof (floor_div_ge (n2 - 1 - C) D t HD).
  lia.
Qed.

(** ** One axis, when the rounding is exact *)

Lemma dim_mem_bounds (d : Dimension) (e : Z) :
  0 < Step d -> dim_mem d e ->
  Start d <= e <= Start d + Step d * (TripCount d - 1).
Proof. intros Hs [k [Hk ->]]. nia. Qed.

Section Axis.
Variables (Left Right : Dimension).
Hypotheses (HKL : 0 < Step Left) (HKR : 0 < Step Right).
Hypothesis HExact : rounding_exact Left Right.

Lemma intersect_axis_correct :
  axis_correct Left Right (intersect_axis Left Right).
Proof.
  unfold intersect_axis.
  destruct (Z.eqb_spec (DimSize Left) (DimSize Right)) as [Hsz|Hsz];
    cbn [negb]; [|exact Hsz].
  destruct (Z.ltb_spec (Start Left + Step Left * (TripCount Left - 1))
                       (Start Right)) as [H1|H1]; cbn [orb].
  { split; [exact Hsz|]. intros e [Hl Hr].
    apply dim_mem_bounds in Hl, Hr; try assumption. lia. }
  destruct (Z.ltb_spec (Start Right + Step Right * (TripCount Right - 1))
                       (Start Left)) as [H2|H2].
  { split; [exact Hsz|]. intros e [Hl Hr].
    apply dim_mem_bounds in Hl, Hr; try assumption. lia. }
  unfold rounding_exact in HExact.
  destruct (solve (Step Left) (- Step Right) (Start Right - Start Left))
    as [[LineX LineY]|] eqn:Es.
  - cbv zeta in HExact. rewrite HExact.
    pose proof (solve_Some _ _ _ HKL HKR LineX LineY Es) as Hs.
    cbv zeta in Hs.
    set (A := Constant LineX) in *. set (B := - RHS_Value LineX) in *.
    set (C := Constant LineY) in *. set (D := - RHS_Value LineY) in *.
    destruct Hs as [HB [HD [HBp [HDp [HM Hsol]]]]].
    pose proof (fun t => window_exact_spec A B C D (TripCount Left)
                           (TripCount Right) t HBp HDp) as Hw.
    destruct (window_exact A B C D (0, TripCount Left - 1)
                (0, TripCount Right - 1)) as [Tmin Tmax].
    cbn [fst snd] in Hw.
    destruct (Z.ltb_spec Tmax Tmin) as [Hemp|Hne].
    + split; [exact Hsz|]. intros e [[x [Hx Ex]] [y [Hy Ey]]].
      assert (Hxy : Step Left * x - Step Right * y =
                    Start Right - Start Left) by lia.
      apply Hsol in Hxy. destruct Hxy as [t [-> ->]].
      specialize (Hw t). lia.
    + cbn [DimSize Step TripCount Start].
      split; [exact Hsz|]. split; [reflexivity|].
      split; [rewrite HB; reflexivity|].
      split; [apply Z.mul_pos_pos; assumption|].
      split; [cbn [TripCount]; lia|].
      intros e. split.
      * intros [k [Hk Ek]]. cbn [DimSize Step TripCount Start] in Hk, Ek.
        pose proof (proj1 (Hw (Tmin + k)) ltac:(lia)) as [Hx Hy].
        pose proof (proj2 (Hsol (A + B * (Tmin + k)) (C + D * (Tmin + k)))
                      (ex_intro _ (Tmin + k) (conj eq_refl eq_refl))) as Heq.
        split.
        -- exists (A + B * (Tmin + k)). split; [lia|]. rewrite Ek. ring.
        -- exists (C + D * (Tmin + k)). split; [lia|]. rewrite Ek. nia.
      * intros [[x [Hx Ex]] [y [Hy Ey]]].
        assert (Hxy : Step Left * x - Step Right * y = Start Right - Start Left)
          by lia.
        apply Hsol in Hxy. destruct Hxy as [t [Hxt Hyt]].
        pose proof (proj2 (Hw t) ltac:(lia)) as Ht.
        exists (t - Tmin). cbn [DimSize Step TripCount Start].
        split; [lia|]. rewrite Ex, Hxt. ring.
  - split; [exact Hsz|]. intros e [[x [Hx Ex]] [y [Hy Ey]]].
    apply (solve_None _ _ _ HKL HKR Es x y). lia.
Qed.
End Axis.

(** ** Symmetry of one axis *)

Lemma dim_mem_Start (d : Dimension) : 0 < TripCount d -> dim_mem d (Start d).
Proof. intros H. exists 0. lia. Qed.

Lemma dim_mem_last (d : Dimension) :
  0 < TripCount d -> dim_mem d (Start d + (TripCount d - 1) * Step d).
Proof. intros H. exists (TripCount d - 1). lia. Qed.

Lemma dim_mem_le (d d' : Dimension) :
  Step d = Step d' -> 0 < Step d -> 0 < TripCount d ->
  (forall e, dim_mem d e -> dim_mem d' e) ->
  Start d' <= Start d /\
  Start d + (TripCount d - 1) * Step d <=
  Start d' + (TripCount d' - 1) * Step d'.
Proof.
  intros Hs Hp Hn Hsub.
  destruct (Hsub _ (dim_mem_Start d Hn)) as [k [Hk Ek]].
  destruct (Hsub _ (dim_mem_last d Hn)) as [k' [Hk' Ek']].
  rewrite <- Hs in *. split; nia.
Qed.

Lemma dim_ext (d d' : Dimension) :
  Step d = Step d' -> DimSize d = DimSize d' ->
  0 < Step d -> 0 < TripCount d -> 0 < TripCount d' ->
  (forall e, dim_mem d e <-> dim_mem d' e) ->
  d = d'.
Proof.
  intros Hs Hz Hp Hn Hn' Hext.
  destruct (dim_mem_le d d' Hs Hp Hn) as [H1 H2]; [intros e; apply Hext|].
  destruct (dim_mem_le d' d (eq_sym Hs) ltac:(lia) Hn') as [H3 H4];
    [intros e; apply Hext|].
  destruct d as [s k n z], d' as [s' k' n' z']. cbn in *. subst k' z'.
  assert (s = s') by lia. subst s'.
  assert (n = n') by nia. subst n'. reflexivity.
Qed.

Lemma lcm_steps_sym (K1 K2 : Z) :
  0 < K1 -> 0 < K2 ->
  K1 * (K2 / Z.gcd K1 K2) = K2 * (K1 / Z.gcd K2 K1).
Proof.
  intros H1 H2.
  destruct (steps_cofactors K1 K2 H1 H2)
    as [k1 [k2 [E1 [E2 [_ [_ [D1 [D2 _]]]]]]]].
  rewrite (Z.gcd_comm K2 K1), D1, D2. nia.
Qed.

Lemma axis_ok_sym (Left Right : Dimension) :
  axis_ok Left Right -> axis_ok Right Left.
Proof. unfold axis_ok. tauto. Qed.

Lemma intersect_axis_sym (Left Right : Dimension) :
  axis_ok Left Right -> intersect_axis Right Left = intersect_axis Left Right.
Proof.
  intros [HKL [HKR [HE HE']]].
  pose proof (intersect_axis_correct Left Right HKL HKR HE) as H.
  pose proof (intersect_axis_correct Right Left HKR HKL HE') as H'.
  destruct (intersect_axis Left Right) as [| |d];
    destruct (intersect_axis Right Left) as [| |d']; cbn in H, H';
    try reflexivity; try (exfalso; intuition congruence).
  - exfalso. destruct H as [_ H]. destruct H' as [_ [_ [_ [_ [Hn Hm]]]]].
    apply (H (Start d')). apply and_comm, Hm, dim_mem_Start, Hn.
  - exfalso. destruct H' as [_ H']. destruct H as [_ [_ [_ [_ [Hn Hm]]]]].
    apply (H' (Start d)). apply and_comm, Hm, dim_mem_Start, Hn.
  - f_equal.
    destruct H as [Hz [Hd [Hs [Hp [Hn Hm]]]]].
    destruct H' as [Hz' [Hd' [Hs' [Hp' [Hn' Hm']]]]].
    apply dim_ext; try assumption.
    + rewrite Hs, Hs'. symmetry. apply lcm_steps_sym; assumption.
    + congruence.
    + intros e. rewrite Hm, Hm'. tauto.
Qed.

(** ** Symmetry of the driver *)

Lemma delinearize_Ptr (From What : MemoryLocationRange) :
  Ptr (delinearize From What) = Ptr What.
Proof.
  unfold delinearize.
  repeat match goal with
         | |- context [if ?b then _ else _] => destruct b
         | |- context [match ?o with Some _ => _ | None => _ end] => destruct o
         end; reflexivity.
Qed.

Lemma normalize_sym (A B : MemoryLocationRange) :
  normalize B A = (snd (normalize A B), fst (normalize A B)).
Proof.
  unfold normalize.
  destruct (Kind A), (Kind B); reflexivity.
Qed.

Lemma normalize_Ptr (A B : MemoryLocationRange) :
  Ptr (fst (normalize A B)) = Ptr A /\ Ptr (snd (normalize A B)) = Ptr B.
Proof.
  unfold normalize.
  destruct (bool_decide (Kind A = DEFAULT) && bool_decide (Kind B = COLLAPSED));
    [cbn; rewrite delinearize_Ptr; split; reflexivity|].
  destruct (bool_decide (Kind B = DEFAULT) && bool_decide (Kind A = COLLAPSED));
    cbn; rewrite ?delinearize_Ptr; split; reflexivity.
Qed.

Lemma same_region_default :
  same_region MemoryLocationRange_default MemoryLocationRange_default.
Proof.
  split; [reflexivity|]. split; [tauto|].
  right. repeat split; discriminate.
Qed.

Lemma intersectScalar_sym (A B : MemoryLocationRange) (LC RC : Fragments) :
  Kind A <> COLLAPSED -> Kind B <> COLLAPSED ->
  swapped_results (intersectScalar A B LC RC) (intersectScalar B A RC LC).
Proof.
  intros HA HB. unfold swapped_results, intersectScalar.
  rewrite (Z.eqb_sym (Ptr B) (Ptr A)).
  destruct (Z.eqb_spec (Ptr A) (Ptr B)) as [HP|HP]; cbn [negb];
    [|cbn; tauto].
  destruct (LowerBound A) as [LL|] eqn:E1, (UpperBound A) as [LU|] eqn:E2,
           (LowerBound B) as [RL|] eqn:E3, (UpperBound B) as [RU|] eqn:E4;
    cbn [orb andb];
    try (rewrite ?Z.geb_leb, ?orb_false_r;
         repeat match goal with
                | |- context [?a <=? ?b] => destruct (Z.leb_spec a b)
                end; cbn; try lia;
         repeat split; try apply same_region_default; reflexivity).
  rewrite !Z.gtb_ltb, (andb_comm (LL <? RU) (RL <? LU)).
  rewrite (Z.max_comm RL LL), (Z.min_comm RU LU).
  destruct ((RL <? LU) && (LL <? RU)); cbn; [|tauto].
  repeat split; try assumption; try discriminate.
  right. cbn. repeat split; assumption.
Qed.

Lemma loop_inv_done (N : nat) (x y : MemoryLocationRange) :
  loop_inv N 0 x y -> same_region x y.
Proof.
  intros [HP [HA [HB [LA [LB Hl]]]]].
  split; [exact HP|]. split.
  - split; intros ->; discriminate.
  - left. split; [exact HA|]. split; [exact HB|].
    apply list_eq. intros J.
    destruct (Nat.lt_ge_cases J N) as [HJ|HJ]; [apply Hl; exact HJ|].
    rewrite !lookup_ge_None_2 by lia. reflexivity.
Qed.

Lemma loop_inv_step (I n : nat) (IntA IntB : MemoryLocationRange)
    (d : Dimension) :
  loop_inv I (S n) IntA IntB ->
  loop_inv (S I) n (set_DimList IntA (<[I := d]> (DimList IntA)))
                   (set_DimList IntB (<[I := d]> (DimList IntB))).
Proof.
  intros [HP [HA [HB [LA [LB Hl]]]]].
  unfold loop_inv. cbn [Ptr Kind DimList set_DimList].
  rewrite !length_insert.
  repeat split; try assumption; try lia.
  intros J HJ. destruct (Nat.eq_dec J I) as [->|Hne].
  - rewrite !list_lookup_insert_eq by lia. reflexivity.
  - rewrite !list_lookup_insert_ne by congruence. apply Hl. lia.
Qed.

Lemma intersect_loop_sym (Threshold : Z) (A B : MemoryLocationRange) :
  forall (n I : nat) (IntA IntB : MemoryLocationRange) (LC RC : Fragments),
    (forall J : nat, (I <= J < I + n)%nat ->
       axis_ok (nth J (DimList A) Dimension_default)
               (nth J (DimList B) Dimension_default)) ->
    loop_inv I n IntA IntB ->
    swapped_results (intersect_loop Threshold A B I n IntA LC RC)
                    (intersect_loop Threshold B A I n IntB RC LC).
Proof.
  induction n as [|n IH]; intros I IntA IntB LC RC Hok Hinv.
  - cbn. replace (I + 0)%nat with I in Hinv by lia.
    split; [|split; reflexivity].
    apply (loop_inv_done I). exact Hinv.
  - cbn [intersect_loop].
    rewrite (intersect_axis_sym _ _ (Hok I ltac:(lia))).
    destruct (intersect_axis (nth I (DimList A) Dimension_default)
                             (nth I (DimList B) Dimension_default)) as [| |d].
    + split; [apply same_region_default | split; reflexivity].
    + split; [exact Logic.I | split; reflexivity].
    + apply IH.
      * intros J HJ. apply Hok. lia.
      * apply loop_inv_step. exact Hinv.
Qed.

Lemma is_collapsed_decide (L : MemoryLocationRange) :
  bool_decide (Kind L = COLLAPSED) =
  match Kind L with COLLAPSED => true | _ => false end.
Proof. destruct (Kind L); reflexivity. Qed.


(** Beyond [2^53] the rounding of the window depends on the order of the
    arguments: the two dense axes share [2^53 + 1] indices, and one order
    loses the last of them. *)
Example intersect_axis_order_large_indices :
  intersect_axis Samples.long_dim Samples.shifted_dim =
    AxisInt (mkDim 1 1 (2 ^ 53) 0) /\
  intersect_axis Samples.shifted_dim Samples.long_dim =
    AxisInt (mkDim 1 1 (2 ^ 53 + 1) 0).
Proof. split; vm_compute; reflexivity. Qed.



(** ** Soundness of the disjoint signal *)

(** When the rounding is exact, a pair of one-dimensional locations without
    a common index gets the disjoint signal. *)
Lemma intersect_disjoint_sound_exact (A B : MemoryLocationRange)
    (Left Right : Dimension) (LC RC : Fragments) (Threshold : Z) :
  Ptr A = Ptr B -> Kind A = COLLAPSED -> Kind B = COLLAPSED ->
  DimList A = [Left] -> DimList B = [Right] ->
  DimSize Left = DimSize Right ->
  valid_dim Left -> valid_dim Right ->
  rounding_exact Left Right ->
  (forall e, ~ (dim_mem Left e /\ dim_mem Right e)) ->
  fst (fst (intersect A B LC RC Threshold)) = None.
Proof.
  intros HP HA HB DA DB Hsz [_ [HKL HNL]] [_ [HKR HNR]] HE Hdis.
  unfold intersect. rewrite HP, Z.eqb_refl. cbn [negb].
  rewrite (normalize_collapsed A B HA HB).
  rewrite !is_collapsed_decide, HA, HB, DA, DB.
  cbn [negb andb orb length Nat.eqb].
  destruct (bool_decide (LowerBound A = LowerBound B) &&
            bool_decide (UpperBound A = UpperBound B)); cbn [andb].
  - case_bool_decide as E.
    + exfalso. injection E as ->.
      apply (Hdis (Start Right)). split; apply dim_mem_Start; assumption.
    + cbn [intersect_loop]. rewrite DA, DB. cbn [nth].
      pose proof (intersect_axis_correct Left Right HKL HKR HE) as H.
      destruct (intersect_axis Left Right) as [| |d]; cbn in H.
      * contradiction.
      * reflexivity.
      * exfalso. destruct H as [_ [_ [_ [_ [Hn Hm]]]]].
        apply (Hdis (Start d)). apply Hm, dim_mem_Start, Hn.
  - cbn [intersect_loop]. rewrite DA, DB. cbn [nth].
    pose proof (intersect_axis_correct Left Right HKL HKR HE) as H.
    destruct (intersect_axis Left Right) as [| |d]; cbn in H.
    + contradiction.
    + reflexivity.
    + exfalso. destruct H as [_ [_ [_ [_ [Hn Hm]]]]].
      apply (Hdis (Start d)). apply Hm, dim_mem_Start, Hn.
Qed.

Example intersect_pair_single_disjoint :
  fst (fst (intersect Samples.pair_LHS Samples.single_RHS
              (Some []) (Some []) 16)) = None.
Proof.
  apply (intersect_disjoint_sound_exact Samples.pair_LHS Samples.single_RHS
           Samples.pair_dim Samples.single_dim);
    try reflexivity.
  - unfold valid_dim. cbn. lia.
  - unfold valid_dim. cbn. lia.
  - intros e [[k [Hk Ek]] [k' [Hk' Ek']]]. cbn in *. lia.
Qed.


(** ** The rounding of the parameter window *)

(** C8 (failing input): for two dense axes of [2^53 + 2] and [2^53 + 3]
    elements the solver gives the lines [x = t] and [y = t]; the window
    computed in double precision ends at [2^53], the exact one at
    [2^53 + 1], and the intersection returned by the axis step is one element
    short. *)
Theorem C8_window_rounding :
  solve (Step Samples.long_dim) (- Step Samples.longer_dim)
        (Start Samples.longer_dim - Start Samples.long_dim) =
    Some (mkLine 0 (-1), mkLine 0 (-1)) /\
  window 0 1 0 1 (0, 2 ^ 53 + 1) (0, 2 ^ 53 + 2) = (0, 2 ^ 53) /\
  window_exact 0 1 0 1 (0, 2 ^ 53 + 1) (0, 2 ^ 53 + 2) = (0, 2 ^ 53 + 1) /\
  ~ rounding_exact Samples.long_dim Samples.longer_dim /\
  intersect_axis Samples.long_dim Samples.longer_dim =
    AxisInt (mkDim 0 1 (2 ^ 53 + 1) 0) /\
  (forall e, dim_mem Samples.long_dim e /\ dim_mem Samples.longer_dim e <->
             dim_mem (mkDim 0 1 (2 ^ 53 + 2) 0) e).
Proof.
  split; [vm_compute; reflexivity|].
  split; [vm_compute; reflexivity|].
  split; [vm_compute; reflexivity|].
  split; [intros H; vm_compute in H; discriminate H|].
  split; [vm_compute; reflexivity|].
  intros e. unfold dim_mem. cbn. split.
  - intros [[k [Hk ->]] _]. exists k. lia.
  - intros [k [Hk ->]]. split; exists k; lia.
Qed.

(** * Further properties of the same functions *)

(** ** Flat intervals as sets of bytes *)

Lemma in_range_bounds (L : MemoryLocationRange) (lo hi x : Z) :
  LowerBound L = Some lo -> UpperBound L = Some hi ->
  in_range L x <-> lo <= x < hi.
Proof.
  intros Hl Hh. unfold in_range. rewrite Hl, Hh. split.
  - intros [H1 H2]. split; [apply H1 | apply H2]; reflexivity.
  - intros [H1 H2]. split; intros b [= <-]; assumption.
Qed.

Lemma provably_apart_disjoint (LHS RHS : MemoryLocationRange) (x : Z) :
  provably_apart LHS RHS -> ~ (in_range LHS x /\ in_range RHS x).
Proof.
  intros [[u [l [Hu [Hl Hle]]]]|[l [u [Hl [Hu Hle]]]]] [[A1 A2] [B1 B2]].
  - specialize (A2 u Hu). specialize (B1 l Hl). lia.
  - specialize (A1 l Hl). specialize (B2 u Hu). lia.
Qed.

Lemma bounds_ordered_dec (U L : option Z) :
  (exists u l, U = Some u /\ L = Some l /\ u <= l) \/
  ~ (exists u l, U = Some u /\ L = Some l /\ u <= l).
Proof.
  destruct U as [u|]; [|right; intros [u [l [[=] _]]]].
  destruct L as [l|]; [|right; intros [u' [l [_ [[=] _]]]]].
  destruct (Z_le_gt_dec u l) as [H|H].
  - left. exists u, l. repeat split; [reflexivity ..|exact H].
  - right. intros [u' [l' [[= <-] [[= <-] Hle]]]]. lia.
Qed.

Lemma classic_apart (LHS RHS : MemoryLocationRange) :
  provably_apart LHS RHS \/ ~ provably_apart LHS RHS.
Proof.
  unfold provably_apart.
  destruct (bounds_ordered_dec (UpperBound LHS) (LowerBound RHS)) as [H|H];
    [left; left; exact H|].
  destruct (bounds_ordered_dec (UpperBound RHS) (LowerBound LHS)) as [G|G].
  - left. right. destruct G as [u [l [Hu [Hl Hle]]]].
    exists l, u. repeat split; assumption.
  - right. intros [H'|[l [u [Hl [Hu Hle]]]]]; [exact (H H')|].
    apply G. exists u, l. repeat split; assumption.
Qed.

Lemma intersectScalar_missing_bound (LHS RHS : MemoryLocationRange)
    (LC RC : Fragments) :
  Ptr LHS = Ptr RHS ->
  ~ (fully_bounded LHS /\ fully_bounded RHS) ->
  (provably_apart LHS RHS ->
   intersectScalar LHS RHS LC RC = (None, LC, RC)) /\
  (~ provably_apart LHS RHS ->
   intersectScalar LHS RHS LC RC = (Some MemoryLocationRange_default, LC, RC)).
Proof.
  intros HP Hnb. unfold intersectScalar, provably_apart, fully_bounded in *.
  rewrite HP, Z.eqb_refl. cbn [negb].
  destruct (LowerBound LHS) as [LL|], (UpperBound LHS) as [LU|],
           (LowerBound RHS) as [RL|], (UpperBound RHS) as [RU|];
    try (exfalso; apply Hnb; repeat split; eexists; reflexivity);
    cbn [orb andb]; rewrite ?Z.geb_leb, ?orb_false_r;
    repeat match goal with
           | |- context [?a <=? ?b] => destruct (Z.leb_spec a b)
           end; cbn [orb];
    (split; [intros Ha | intros Hn]); try reflexivity; exfalso;
    first
      [ apply Hn;
        first [ left; eexists _, _; repeat split; [reflexivity ..|lia]
              | right; eexists _, _; repeat split; [reflexivity ..|lia] ]
      | repeat match goal with
               | H : _ \/ _ |- _ => destruct H
               | H : exists _, _ |- _ => destruct H
               | H : _ /\ _ |- _ => destruct H
               | H : Some _ = Some _ |- _ => injection H as H; subst
               | H : None = Some _ |- _ => discriminate H
               end; lia ].
Qed.

Lemma overlaps_dec (LL LU RL RU : Z) :
  {overlaps LL LU RL RU} + {~ overlaps LL LU RL RU}.
Proof.
  unfold overlaps.
  destruct (Z_lt_dec RL LU); destruct (Z_lt_dec LL RU);
    [left; split; assumption | right; lia ..].
Qed.

Lemma not_fully_bounded (LHS RHS : MemoryLocationRange) :
  ~ (fully_bounded LHS /\ fully_bounded RHS) \/
  exists LL LU RL RU,
    LowerBound LHS = Some LL /\ UpperBound LHS = Some LU /\
    LowerBound RHS = Some RL /\ UpperBound RHS = Some RU.
Proof.
  unfold fully_bounded.
  destruct (LowerBound LHS) as [LL|]; [|left; intros [[[? [=]] _] _]].
  destruct (UpperBound LHS) as [LU|]; [|left; intros [[_ [? [=]]] _]].
  destruct (LowerBound RHS) as [RL|]; [|left; intros [_ [[? [=]] _]]].
  destruct (UpperBound RHS) as [RU|]; [|left; intros [_ [_ [? [=]]]]].
  right. exists LL, LU, RL, RU. repeat split; reflexivity.
Qed.

Lemma in_range_default (x : Z) : in_range MemoryLocationRange_default x.
Proof. split; intros b [=]. Qed.

(** X1: read as sets of bytes, the results of [intersectScalar] on one base
    object are sound: after the disjoint signal no byte lies in both
    intervals; a returned location contains every common byte, and when all
    four bounds are present it contains only common bytes. *)
Theorem X1_intersectScalar_sets (LHS RHS : MemoryLocationRange)
    (LC RC : Fragments) :
  Ptr LHS = Ptr RHS ->
  match fst (fst (intersectScalar LHS RHS LC RC)) with
  | None => forall x, ~ (in_range LHS x /\ in_range RHS x)
  | Some Int =>
      (forall x, in_range LHS x /\ in_range RHS x -> in_range Int x) /\
      (fully_bounded LHS /\ fully_bounded RHS ->
       forall x, in_range Int x -> in_range LHS x /\ in_range RHS x)
  end.
Proof.
  intros HP.
  destruct (not_fully_bounded LHS RHS)
    as [Hnb|[LL [LU [RL [RU [E1 [E2 [E3 E4]]]]]]]].
  - destruct (intersectScalar_missing_bound LHS RHS LC RC HP Hnb) as [Ha Hn].
    destruct (classic_apart LHS RHS) as [H|H].
    + rewrite (Ha H). cbn [fst]. intros x. apply provably_apart_disjoint, H.
    + rewrite (Hn H). cbn [fst]. split.
      * intros x _. apply in_range_default.
      * intros Hb. contradiction.
  - destruct (overlaps_dec LL LU RL RU) as [Hov|Hno].
    + rewrite (intersectScalar_overlap LHS RHS LC RC LL LU RL RU
                 HP E1 E2 E3 E4 Hov). cbn [fst].
      split; [intros x [HA HB] | intros _ x HI].
      * rewrite (in_range_bounds LHS LL LU) in HA by assumption.
        rewrite (in_range_bounds RHS RL RU) in HB by assumption.
        apply (in_range_bounds _ (Z.max LL RL) (Z.min LU RU));
          [reflexivity ..|lia].
      * apply (in_range_bounds _ (Z.max LL RL) (Z.min LU RU)) in HI;
          [|reflexivity ..].
        rewrite (in_range_bounds LHS LL LU), (in_range_bounds RHS RL RU)
          by assumption. lia.
    + rewrite (intersectScalar_disjoint LHS RHS LC RC LL LU RL RU
                 HP E1 E2 E3 E4 Hno). cbn [fst].
      intros x [HA HB].
      rewrite (in_range_bounds LHS LL LU) in HA by assumption.
      rewrite (in_range_bounds RHS RL RU) in HB by assumption.
      apply Hno. unfold overlaps. lia.
Qed.

Lemma X1_intersectScalar_sets_witness :
  match fst (fst (intersectScalar Samples.scalar_LHS Samples.scalar_RHS
                    (Some []) (Some []))) with
  | None =>
      forall x, ~ (in_range Samples.scalar_LHS x /\
                   in_range Samples.scalar_RHS x)
  | Some Int =>
      (forall x, in_range Samples.scalar_LHS x /\
                 in_range Samples.scalar_RHS x -> in_range Int x) /\
      (fully_bounded Samples.scalar_LHS /\ fully_bounded Samples.scalar_RHS ->
       forall x, in_range Int x ->
                 in_range Samples.scalar_LHS x /\
                 in_range Samples.scalar_RHS x)
  end.
Proof.
  exact (X1_intersectScalar_sets Samples.scalar_LHS Samples.scalar_RHS
           (Some []) (Some []) eq_refl).
Defined.

(** ** The complement generator on a sub-range *)

Lemma covers_app (l1 l2 : list Dimension) (e : Z) :
  covers (l1 ++ l2) e <-> covers l1 e \/ covers l2 e.
Proof. unfold covers. apply Exists_app. Qed.

Lemma covers_nil (e : Z) : covers [] e <-> False.
Proof. unfold covers. apply Exists_nil. Qed.

Lemma covers_one (d : Dimension) (e : Z) : covers [d] e <-> dim_mem d e.
Proof. unfold covers. rewrite Exists_cons, Exists_nil. tauto. Qed.

Section SubRange.
Variables (D I : Dimension) (a m : Z).
Hypothesis Sub : sub_dimension D I a m.

Lemma sub_mem_pos (e : Z) :
  dim_mem I e <->
  exists q, 0 <= q < TripCount I /\ e = Start D + (a + q * m) * Step D.
Proof.
  destruct Sub as [Hs Ha HS Hm HK Hn Hl]. unfold dim_mem.
  split; intros [q [Hq ->]]; exists q; (split; [exact Hq|]);
    rewrite HS, HK; ring.
Qed.

Lemma left_covers (e : Z) :
  covers (left_fragment D I) e <->
  exists p, 0 <= p < a /\ e = Start D + p * Step D.
Proof.
  destruct Sub as [Hs Ha HS Hm HK Hn Hl]. unfold left_fragment.
  replace (Start I - Start D) with (a * Step D) by lia.
  rewrite Z.quot_mul by lia.
  destruct (Z.ltb_spec (Start D) (Start I)) as [H|H].
  - rewrite covers_one. unfold dim_mem. cbn. reflexivity.
  - rewrite covers_nil. split; [tauto|]. intros [p [Hp _]]. nia.
Qed.

Lemma right_covers (e : Z) :
  covers (right_fragment D I) e <->
  exists p, a + m * (TripCount I - 1) < p < TripCount D /\
            e = Start D + p * Step D.
Proof.
  destruct Sub as [Hs Ha HS Hm HK Hn Hl]. unfold right_fragment. cbv zeta.
  set (last := a + m * (TripCount I - 1)) in *.
  assert (EI : Start I + Step I * (TripCount I - 1) = Start D + last * Step D)
    by (subst last; rewrite HS, HK; ring).
  rewrite EI.
  replace (Start D + Step D * (TripCount D - 1) - (Start D + last * Step D))
    with ((TripCount D - 1 - last) * Step D) by ring.
  rewrite Z.quot_mul by lia.
  destruct (Z.gtb_spec (Start D + Step D * (TripCount D - 1))
                       (Start D + last * Step D)) as [H|H].
  - rewrite covers_one. unfold dim_mem. cbn. split.
    + intros [k [Hk ->]]. exists (last + 1 + k). split; [lia | ring].
    + intros [p [Hp ->]]. exists (p - last - 1). split; [lia | ring].
  - rewrite covers_nil. split; [tauto|]. intros [p [Hp _]]. nia.
Qed.

Lemma center_covers (cnt : nat) (J e : Z) :
  covers (center_fragments D I J cnt) e <->
  exists j k, 0 <= j < Z.of_nat cnt /\ 0 <= k < TripCount I - 1 /\
              e = Start D + (a + J + j + 1 + k) * Step D.
Proof.
  destruct Sub as [Hs Ha HS Hm HK Hn Hl].
  revert J. induction cnt as [|cnt IH]; intros J; cbn [center_fragments].
  - rewrite covers_nil. split; [tauto|]. intros [j [k [Hj _]]]. lia.
  - change (?x :: ?l) with ([x] ++ l). rewrite covers_app, covers_one, IH.
    unfold dim_mem. cbn [Start Step TripCount]. split.
    + intros [[k [Hk ->]]|[j [k [Hj [Hk ->]]]]].
      * exists 0, k. split; [lia|]. split; [exact Hk|]. rewrite HS. ring.
      * exists (j + 1), k. split; [lia|]. split; [exact Hk|]. ring.
    + intros [j [k [Hj [Hk ->]]]].
      destruct (Z.eq_dec j 0) as [->|Hne].
      * left. exists k. split; [exact Hk|]. rewrite HS. ring.
      * right. exists (j - 1), k. split; [lia|]. split; [exact Hk|]. ring.
Qed.

Lemma difference_sub (Res : list Dimension) (Threshold : Z) :
  m - 1 <= Threshold -> m - 1 < 2 ^ 64 ->
  difference D I Res Threshold =
  (true,
   ((Res ++ left_fragment D I) ++ right_fragment D I) ++
   (if TripCount I >? 1
    then center_fragments D I 0 (Z.to_nat (m - 1)) else [])).
Proof.
  destruct Sub as [Hs Ha HS Hm HK Hn Hl]. intros HT H64.
  unfold difference. rewrite HK, Z.quot_mul by lia.
  rewrite wrap64_small by lia.
  destruct (TripCount I >? 1); [|rewrite app_nil_r; reflexivity].
  destruct (Z.gtb_spec (m - 1) Threshold) as [H|H]; [lia | reflexivity].
Qed.

(** The positions, counted in steps of [D] from its start, of the indices
    that the result of [difference] covers. *)
Lemma difference_covers (Threshold e : Z) :
  m - 1 <= Threshold -> m - 1 < 2 ^ 64 ->
  covers (snd (difference D I [] Threshold)) e <->
  exists p,
    e = Start D + p * Step D /\
    (0 <= p < a \/
     a + m * (TripCount I - 1) < p < TripCount D \/
     (1 < TripCount I /\
      exists j k, 0 <= j < m - 1 /\ 0 <= k < TripCount I - 1 /\
                  p = a + j + 1 + k)).
Proof.
  intros HT H64. rewrite (difference_sub [] Threshold HT H64). cbn [snd app].
  rewrite !covers_app, left_covers, right_covers.
  destruct Sub as [Hs Ha HS Hm HK Hn Hl].
  destruct (Z.gtb_spec (TripCount I) 1) as [H1|H1].
  - rewrite center_covers, Z2Nat.id by lia. split.
    + intros [[[p [Hp ->]]|[p [Hp ->]]]|[j [k [Hj [Hk ->]]]]].
      * exists p. split; [reflexivity|]. left. exact Hp.
      * exists p. split; [reflexivity|]. right. left. exact Hp.
      * exists (a + 0 + j + 1 + k). split; [reflexivity|]. right. right.
        split; [lia|]. exists j, k. repeat split; lia.
    + intros [p [-> [Hp|[Hp|[_ [j [k [Hj [Hk ->]]]]]]]]].
      * left. left. exists p. split; [exact Hp | reflexivity].
      * left. right. exists p. split; [exact Hp | reflexivity].
      * right. exists j, k. split; [exact Hj|]. split; [exact Hk|].
        f_equal. f_equal. lia.
  - rewrite covers_nil. split.
    + intros [[[p [Hp ->]]|[p [Hp ->]]]|[]].
      * exists p. split; [reflexivity|]. left. exact Hp.
      * exists p. split; [reflexivity|]. right. left. exact Hp.
    + intros [p [-> [Hp|[Hp|[Hn' _]]]]]; [| |lia].
      * left. left. exists p. split; [exact Hp | reflexivity].
      * left. right. exists p. split; [exact Hp | reflexivity].
Qed.

Lemma pos_inj (p q : Z) :
  Start D + p * Step D = Start D + q * Step D -> p = q.
Proof. destruct Sub as [Hs _ _ _ _ _ _]. intros H. nia. Qed.
End SubRange.

(** X2: when [I] is a subset of [D] with the step of [D], or with at most
    two elements, and the budget suffices, [difference] succeeds and its
    pieces cover exactly the indices of [D] that are not in [I]. *)
Theorem X2_difference_exact (D I : Dimension) (a m Threshold : Z) :
  sub_dimension D I a m ->
  m = 1 \/ TripCount I <= 2 ->
  m - 1 <= Threshold -> m - 1 < 2 ^ 64 ->
  fst (difference D I [] Threshold) = true /\
  forall e, covers (snd (difference D I [] Threshold)) e <->
            dim_mem D e /\ ~ dim_mem I e.
Proof.
  intros Sub Hcase HT H64.
  split; [rewrite (difference_sub D I a m Sub [] Threshold HT H64);
          reflexivity|].
  intros e.
  rewrite (difference_covers D I a m Sub Threshold e HT H64).
  rewrite (sub_mem_pos D I a m Sub).
  pose proof Sub as [Hs Ha HS Hm HK Hn Hl].
  assert (Hspan : 0 <= m * (TripCount I - 1)) by nia.
  split.
  - intros [p [-> Hp]]. split.
    + exists p. split; [|reflexivity].
      destruct Hp as [Hp|[Hp|[H1 [j [k [Hj [Hk ->]]]]]]]; [lia | lia | nia].
    + intros [q [Hq Eq]]. apply (pos_inj D I a m Sub) in Eq. subst p.
      destruct Hp as [Hp|[Hp|[H1 [j [k [Hj [Hk Ep]]]]]]]; [nia | nia |].
      destruct Hcase as [->|Hn2]; [lia|].
      assert (k = 0) by lia. subst k.
      assert (q = 0 \/ q = 1) as [->| ->] by lia; lia.
  - intros [[p [Hp ->]] Hnot]. exists p. split; [reflexivity|].
    destruct (Z_lt_dec p a) as [H1|H1]; [left; lia|].
    destruct (Z_lt_dec (a + m * (TripCount I - 1)) p) as [H2|H2];
      [right; left; lia|].
    right. right.
    destruct Hcase as [->|Hn2].
    + exfalso. apply Hnot. exists (p - a). split; [lia | f_equal; ring].
    + assert (TripCount I = 1 \/ TripCount I = 2) as [E|E] by lia.
      * exfalso. apply Hnot. exists 0. rewrite E in *.
        split; [lia | f_equal; f_equal; lia].
      * rewrite E in *. split; [lia|].
        assert (p <> a).
        { intros ->. apply Hnot. exists 0. split; [lia | f_equal; ring]. }
        assert (p <> a + m).
        { intros ->. apply Hnot. exists 1. split; [lia | f_equal; ring]. }
        exists (p - a - 1), 0. repeat split; lia.
Qed.

Lemma X2_difference_exact_witness :
  fst (difference Cases.span_dim Cases.ends_dim [] 8) = true /\
  forall e, covers (snd (difference Cases.span_dim Cases.ends_dim [] 8)) e <->
            dim_mem Cases.span_dim e /\ ~ dim_mem Cases.ends_dim e.
Proof.
  apply (X2_difference_exact Cases.span_dim Cases.ends_dim 5 9 8).
  - constructor; vm_compute; first [reflexivity | discriminate].
  - right. vm_compute. discriminate.
  - lia.
  - lia.
Defined.

(** X3: when the step of [I] is [m >= 2] steps of [D], [I] has more than [m]
    elements and the budget suffices, the pieces of [difference] are not
    disjoint from [I]: they cover its second element, because every centre
    piece advances by the step of [D]. *)
Theorem X3_difference_center_overlap (D I : Dimension) (a m Threshold : Z) :
  sub_dimension D I a m ->
  2 <= m < TripCount I ->
  m - 1 <= Threshold -> m - 1 < 2 ^ 64 ->
  fst (difference D I [] Threshold) = true /\
  dim_mem I (Start I + Step I) /\
  covers (snd (difference D I [] Threshold)) (Start I + Step I).
Proof.
  intros Sub Hm HT H64.
  pose proof Sub as [Hs Ha HS Hm1 HK Hn Hl].
  split; [rewrite (difference_sub D I a m Sub [] Threshold HT H64);
          reflexivity|].
  split.
  - exists 1. split; [lia | ring].
  - apply (difference_covers D I a m Sub Threshold _ HT H64).
    exists (a + m). split; [rewrite HS, HK; ring|].
    right. right. split; [lia|].
    exists 0, (m - 1). repeat split; lia.
Qed.

Lemma X3_difference_center_overlap_witness :
  fst (difference Cases.span_dim Cases.comb_dim [] 2) = true /\
  dim_mem Cases.comb_dim (5 + 3) /\
  covers (snd (difference Cases.span_dim Cases.comb_dim [] 2)) (5 + 3).
Proof.
  apply (X3_difference_center_overlap Cases.span_dim Cases.comb_dim 5 3 2).
  - constructor; vm_compute; first [reflexivity | discriminate].
  - vm_compute. split; [discriminate | reflexivity].
  - lia.
  - lia.
Defined.

(** ** The returned location as a set of points *)

Lemma loc_mem_lookup (F : MemoryLocationRange) (pt : list Z) :
  loc_mem F pt <->
  length (DimList F) = length pt /\
  forall (J : nat) (d : Dimension) (e : Z),
    DimList F !! J = Some d -> pt !! J = Some e -> dim_mem d e.
Proof. unfold loc_mem. apply Forall2_same_length_lookup. Qed.

Lemma intersect_loop_sets (Threshold : Z) (A B : MemoryLocationRange) :
  (forall I : nat,
     (I < length (DimList A))%nat ->
     0 < Step (nth I (DimList A) Dimension_default) /\
     0 < Step (nth I (DimList B) Dimension_default) /\
     rounding_exact (nth I (DimList A) Dimension_default)
                    (nth I (DimList B) Dimension_default)) ->
  forall (n I : nat) (Int : MemoryLocationRange) (LC RC : Fragments),
    (I + n)%nat = length (DimList A) ->
    length (DimList Int) = length (DimList A) ->
    Kind Int = COLLAPSED -> Ptr Int = Ptr A ->
    (forall (J : nat) (d : Dimension),
       (J < I)%nat -> DimList Int !! J = Some d ->
       forall e, dim_mem d e <->
                 dim_mem (nth J (DimList A) Dimension_default) e /\
                 dim_mem (nth J (DimList B) Dimension_default) e) ->
    match fst (fst (intersect_loop Threshold A B I n Int LC RC)) with
    | None =>
        exists J : nat,
          (J < length (DimList A))%nat /\
          forall e, ~ (dim_mem (nth J (DimList A) Dimension_default) e /\
                       dim_mem (nth J (DimList B) Dimension_default) e)
    | Some X =>
        X = MemoryLocationRange_default \/
        (Kind X = COLLAPSED /\ Ptr X = Ptr A /\
         length (DimList X) = length (DimList A) /\
         forall (J : nat) (d : Dimension),
           DimList X !! J = Some d ->
           forall e, dim_mem d e <->
                     dim_mem (nth J (DimList A) Dimension_default) e /\
                     dim_mem (nth J (DimList B) Dimension_default) e)
    end.
Proof.
  intros Hax n. induction n as [|n IH]; intros I Int LC RC HN HL HK HP Hdone.
  - cbn [intersect_loop fst]. right.
    split; [exact HK|]. split; [exact HP|]. split; [exact HL|].
    intros J d Hd. apply Hdone; [|exact Hd].
    apply lookup_lt_Some in Hd. lia.
  - destruct (Hax I ltac:(lia)) as [HKL [HKR HE]].
    pose proof (intersect_axis_correct _ _ HKL HKR HE) as Hc.
    cbn [intersect_loop].
    destruct (intersect_axis (nth I (DimList A) Dimension_default)
                             (nth I (DimList B) Dimension_default))
      as [| |d]; cbn [axis_correct] in Hc.
    + cbn [fst]. left. reflexivity.
    + cbn [fst]. exists I. split; [lia|]. apply Hc.
    + apply IH.
      * lia.
      * cbn [set_DimList DimList]. rewrite length_insert. exact HL.
      * exact HK.
      * exact HP.
      * intros J d' HJ Hd'. cbn [set_DimList DimList] in Hd'.
        destruct (Nat.eq_dec I J) as [<-|Hne].
        -- rewrite list_lookup_insert_eq in Hd' by lia.
           injection Hd' as <-. apply Hc.
        -- rewrite list_lookup_insert_ne in Hd' by exact Hne.
           apply Hdone; [lia|exact Hd'].
Qed.

Lemma axes_to_points (A B : MemoryLocationRange)
    (r : option MemoryLocationRange) :
  length (DimList A) = length (DimList B) ->
  match r with
  | None =>
      exists J : nat,
        (J < length (DimList A))%nat /\
        forall e, ~ (dim_mem (nth J (DimList A) Dimension_default) e /\
                     dim_mem (nth J (DimList B) Dimension_default) e)
  | Some X =>
      X = MemoryLocationRange_default \/
      (Kind X = COLLAPSED /\ Ptr X = Ptr A /\
       length (DimList X) = length (DimList A) /\
       forall (J : nat) (d : Dimension),
         DimList X !! J = Some d ->
         forall e, dim_mem d e <->
                   dim_mem (nth J (DimList A) Dimension_default) e /\
                   dim_mem (nth J (DimList B) Dimension_default) e)
  end ->
  match r with
  | None => forall pt, ~ (loc_mem A pt /\ loc_mem B pt)
  | Some X =>
      X = MemoryLocationRange_default \/
      (Kind X = COLLAPSED /\ Ptr X = Ptr A /\
       forall pt, loc_mem X pt <-> loc_mem A pt /\ loc_mem B pt)
  end.
Proof.
  intros HLen H. destruct r as [X|].
  - destruct H as [H|[HK [HPX [HL Hm]]]]; [left; exact H|right].
    split; [exact HK|]. split; [exact HPX|].
    intros pt. rewrite !loc_mem_lookup. split.
    + intros [Hl Hpt].
      assert (Hboth : forall (J : nat) (e : Z),
                 pt !! J = Some e ->
                 dim_mem (nth J (DimList A) Dimension_default) e /\
                 dim_mem (nth J (DimList B) Dimension_default) e).
      { intros J e He.
        destruct (lookup_lt_is_Some_2 (DimList X) J) as [dx Hdx].
        { apply lookup_lt_Some in He. lia. }
        apply (Hm J dx Hdx), (Hpt J dx e Hdx He). }
      split; (split; [lia|]); intros J d e Hd He;
        destruct (Hboth J e He) as [H1 H2];
        rewrite (nth_lookup_Some _ _ _ _ Hd) in *; assumption.
    + intros [[Hl1 H1] [Hl2 H2]]. split; [lia|].
      intros J d e Hd He. apply (Hm J d Hd).
      destruct (lookup_lt_is_Some_2 (DimList A) J) as [da Hda].
      { apply lookup_lt_Some in He. lia. }
      destruct (lookup_lt_is_Some_2 (DimList B) J) as [db Hdb].
      { apply lookup_lt_Some in He. lia. }
      rewrite (nth_lookup_Some _ _ _ _ Hda), (nth_lookup_Some _ _ _ _ Hdb).
      split; [apply (H1 J da e Hda He)|apply (H2 J db e Hdb He)].
  - destruct H as [J [HJ Hdis]].
    intros pt [H1 H2]. rewrite loc_mem_lookup in H1, H2.
    destruct H1 as [Hl1 H1]. destruct H2 as [Hl2 H2].
    destruct (lookup_lt_is_Some_2 (DimList A) J) as [da Hda]; [lia|].
    destruct (lookup_lt_is_Some_2 (DimList B) J) as [db Hdb]; [lia|].
    destruct (lookup_lt_is_Some_2 pt J) as [e He]; [lia|].
    apply (Hdis e).
    rewrite (nth_lookup_Some _ _ _ _ Hda), (nth_lookup_Some _ _ _ _ Hdb).
    split; [apply (H1 J da e Hda He)|apply (H2 J db e Hdb He)].
Qed.


